(** * Symbolic expression engine: evaluation, differentiation, substitution

    A shallow embedding of [Expression<T>] (src/src/expression.cpp and
    src/include/expression.hpp) and proofs of the properties its
    specification states.

    The development has two layers.

    - The tree layer models a node by its kind and its operands.  Every
      node is immutable, so [evaluate], [derivative], [isConstant] and
      [toString] depend on the tree alone; all claims about values,
      failures and rendered text are settled here.
    - Module [Shared] adds the identity of nodes: a node carries the
      address [make_shared] gave it and allocation threads the next free
      address.  It embeds [substitute] and [derivative] once more,
      allocation by allocation, and settles which nodes of a result are
      the very nodes of the input. *)

From Stdlib Require Import ZArith String List Reals Lra.
From stdpp Require Import base option gmap strings list pretty.
Import ListNotations.

Local Open Scope string_scope.

(** ** The scalar type

    [Expression] is a template over the scalar [T]; it is instantiated at
    [double] and [complex<double>].  The engine only uses the operations
    below, each a pure function of its arguments. *)

Class Scalar (T : Type) : Type := {
  Tlit : Z -> T;          (* T(0), T(1), T(2): conversion of an integer literal *)
  Tadd : T -> T -> T;     (* operator+ *)
  Tsub : T -> T -> T;     (* operator- *)
  Tmul : T -> T -> T;     (* operator* *)
  Tdiv : T -> T -> T;     (* operator/ *)
  Tneg : T -> T;          (* unary operator- *)
  Tpow : T -> T -> T;     (* std::pow *)
  Tsin : T -> T;          (* std::sin *)
  Tcos : T -> T;          (* std::cos *)
  Texp : T -> T;          (* std::exp *)
  Tlog : T -> T           (* std::log *)
}.

(** The real numbers as scalars: exact arithmetic, without the rounding,
    overflow and NaN of [double], and with [Rpower], which is the real
    power function on positive bases only.  It is not the program's
    arithmetic: no theorem is stated over it, it only instantiates the
    theorems, which hold for every scalar type, at concrete inputs. *)
#[export] Instance R_Scalar : Scalar R := {|
  Tlit := IZR;
  Tadd := Rplus;
  Tsub := Rminus;
  Tmul := Rmult;
  Tdiv := Rdiv;
  Tneg := Ropp;
  Tpow := Rpower;
  Tsin := Rtrigo_def.sin;
  Tcos := Rtrigo_def.cos;
  Texp := Rtrigo_def.exp;
  Tlog := ln
|}.

(** [ss << root->value]: the text a stream prints for a scalar. *)
Class StreamOut (T : Type) : Type := stream_out : T -> string.

(** ** Exceptions

    Both failures of the engine are [std::runtime_error]s; a computation
    that may throw returns a [result]. *)

Inductive exception : Type :=
| runtime_error (what : string).

Inductive result (A : Type) : Type :=
| Ok (a : A)
| Throw (e : exception).

Arguments Ok {A} a.
Arguments Throw {A} e.

Definition bind {A B : Type} (c : result A) (k : A -> result B) : result B :=
  match c with
  | Ok a => k a
  | Throw e => Throw e
  end.

Notation "x <- c ;; k" := (bind c (fun x => k))
  (at level 100, c at next level, right associativity).

Definition Undefined_variable (variable : string) : exception :=
  runtime_error ("Undefined variable: " ++ variable).

Definition Derivative_not_implemented : exception :=
  runtime_error "Derivative of non-constant exponents not implemented".

(** ** Nodes

    [Node::Type] has twelve tags.  [struct Node] has four constructors: a
    value, a variable name, two operands, one operand; the engine builds a
    CONSTANT only with the first, a VARIABLE only with the second, the five
    binary kinds only with two operands and the five unary kinds only with
    one (the right pointer is then null).  [Node] is that tagged union:
    the tag and exactly the fields that are meaningful for it. *)

Inductive BinaryType : Type := ADD | SUBTRACT | MULTIPLY | DIVIDE | POWER.

Inductive UnaryType : Type := SIN | COS | EXP | LOG | NEGATE.

Inductive Node (T : Type) : Type :=
| ConstantNode (value : T)
| VariableNode (variable : string)
| BinaryNode (type : BinaryType) (left right : Node T)
| UnaryNode (type : UnaryType) (left : Node T).

Arguments ConstantNode {T} value.
Arguments VariableNode {T} variable.
Arguments BinaryNode {T} type left right.
Arguments UnaryNode {T} type left.

(** [root->left] and [root->right] as pointers that may be null. *)
Definition left {T} (root : Node T) : option (Node T) :=
  match root with
  | BinaryNode _ l _ | UnaryNode _ l => Some l
  | _ => None
  end.

Definition right {T} (root : Node T) : option (Node T) :=
  match root with
  | BinaryNode _ _ r => Some r
  | _ => None
  end.

(** Every node of a tree, the root first. *)
Fixpoint subtrees {T} (root : Node T) : list (Node T) :=
  root ::
  match root with
  | BinaryNode _ l r => subtrees l ++ subtrees r
  | UnaryNode _ l => subtrees l
  | _ => []
  end.

(** The names at the VARIABLE leaves, left to right. *)
Fixpoint variables_of {T} (root : Node T) : list string :=
  match root with
  | ConstantNode _ => []
  | VariableNode x => [x]
  | BinaryNode _ l r => variables_of l ++ variables_of r
  | UnaryNode _ l => variables_of l
  end.

Section Engine.

Context {T : Type}.

(** ** Predicates *)

Fixpoint isConstant (root : Node T) : bool :=
  match root with
  | ConstantNode _ => true
  | VariableNode _ => false
  | BinaryNode _ l r => isConstant l && isConstant r
  | UnaryNode _ l => isConstant l
  end.

Definition isVariable (root : Node T) : bool :=
  match root with
  | VariableNode _ => true
  | _ => false
  end.

Definition isVariable_named (root : Node T) (var : string) : bool :=
  match root with
  | VariableNode variable => String.eqb variable var
  | _ => false
  end.

(** ** Substitution

    The match on [root] is the case analysis the source makes on the two
    child pointers: both null for a leaf ([return *this]), only the right
    one null for a unary node, none for a binary node.  A recursive call
    never returns a null root, so an interior node always reaches the
    final [make_shared]. *)

Fixpoint substitute (root : Node T) (variable : string) (value : Node T) : Node T :=
  if isVariable_named root variable then value
  else
    match root with
    | ConstantNode _ | VariableNode _ => root
    | UnaryNode type l => UnaryNode type (substitute l variable value)
    | BinaryNode type l r =>
        let newLeft := substitute l variable value in
        let newRight := substitute r variable value in
        BinaryNode type newLeft newRight
    end.

(** ** Rendering *)

Context `{StreamOut T}.

Fixpoint toString (root : Node T) : string :=
  match root with
  | ConstantNode value => stream_out value
  | VariableNode variable => variable
  | BinaryNode ADD l r => "(" ++ toString l ++ " + " ++ toString r ++ ")"
  | BinaryNode SUBTRACT l r => "(" ++ toString l ++ " - " ++ toString r ++ ")"
  | BinaryNode MULTIPLY l r => "(" ++ toString l ++ " * " ++ toString r ++ ")"
  | BinaryNode DIVIDE l r => "(" ++ toString l ++ " / " ++ toString r ++ ")"
  | BinaryNode POWER l r => "pow(" ++ toString l ++ ", " ++ toString r ++ ")"
  | UnaryNode SIN l => "sin(" ++ toString l ++ ")"
  | UnaryNode COS l => "cos(" ++ toString l ++ ")"
  | UnaryNode EXP l => "exp(" ++ toString l ++ ")"
  | UnaryNode LOG l => "log(" ++ toString l ++ ")"
  | UnaryNode NEGATE l => "-(" ++ toString l ++ ")"
  end.

Context `{Scalar T}.

(** ** Builder operations *)

Definition Expression_value (value : T) : Node T := ConstantNode value.
Definition Expression_variable (variable : string) : Node T := VariableNode variable.

Definition op_add (a b : Node T) : Node T := BinaryNode ADD a b.
Definition op_sub (a b : Node T) : Node T := BinaryNode SUBTRACT a b.
Definition op_mul (a b : Node T) : Node T := BinaryNode MULTIPLY a b.
Definition op_div (a b : Node T) : Node T := BinaryNode DIVIDE a b.
Definition op_neg (a : Node T) : Node T := UnaryNode NEGATE a.

Definition sin (expr : Node T) : Node T := UnaryNode SIN expr.
Definition cos (expr : Node T) : Node T := UnaryNode COS expr.
Definition exp (expr : Node T) : Node T := UnaryNode EXP expr.
Definition log (expr : Node T) : Node T := UnaryNode LOG expr.
Definition pow (base exponent : Node T) : Node T := BinaryNode POWER base exponent.
(* the overload taking a raw scalar exponent *)
Definition pow_scalar (base : Node T) (exponent : T) : Node T :=
  pow base (Expression_value exponent).

(** ** Evaluation

    The operands of a binary operator are evaluated left to right here; C++
    leaves the order open, and it only decides which of two missing
    variables the exception names. *)

Fixpoint evaluate (root : Node T) (variables : gmap string T) : result T :=
  match root with
  | ConstantNode value => Ok value
  | VariableNode variable =>
      match variables !! variable with
      | Some it => Ok it
      | None => Throw (Undefined_variable variable)
      end
  | BinaryNode ADD l r =>
      a <- evaluate l variables ;; b <- evaluate r variables ;; Ok (Tadd a b)
  | BinaryNode SUBTRACT l r =>
      a <- evaluate l variables ;; b <- evaluate r variables ;; Ok (Tsub a b)
  | BinaryNode MULTIPLY l r =>
      a <- evaluate l variables ;; b <- evaluate r variables ;; Ok (Tmul a b)
  | BinaryNode DIVIDE l r =>
      a <- evaluate l variables ;; b <- evaluate r variables ;; Ok (Tdiv a b)
  | BinaryNode POWER l r =>
      a <- evaluate l variables ;; b <- evaluate r variables ;; Ok (Tpow a b)
  | UnaryNode SIN l => a <- evaluate l variables ;; Ok (Tsin a)
  | UnaryNode COS l => a <- evaluate l variables ;; Ok (Tcos a)
  | UnaryNode EXP l => a <- evaluate l variables ;; Ok (Texp a)
  | UnaryNode LOG l => a <- evaluate l variables ;; Ok (Tlog a)
  | UnaryNode NEGATE l => a <- evaluate l variables ;; Ok (Tneg a)
  end.

(** ** Differentiation *)

Fixpoint derivative (node : Node T) (variable : string) : result (Node T) :=
  match node with
  | ConstantNode _ => Ok (ConstantNode (Tlit 0))
  | VariableNode name =>
      Ok (ConstantNode (if String.eqb name variable then Tlit 1 else Tlit 0))
  | BinaryNode ((ADD | SUBTRACT) as type) l r =>
      dl <- derivative l variable ;;
      dr <- derivative r variable ;;
      Ok (BinaryNode type dl dr)
  | BinaryNode MULTIPLY u v =>
      du <- derivative u variable ;;
      dv <- derivative v variable ;;
      let term1 := BinaryNode MULTIPLY du v in
      let term2 := BinaryNode MULTIPLY u dv in
      Ok (BinaryNode ADD term1 term2)
  | BinaryNode DIVIDE u v =>
      du <- derivative u variable ;;
      dv <- derivative v variable ;;
      let num1 := BinaryNode MULTIPLY du v in
      let num2 := BinaryNode MULTIPLY u dv in
      let numerator := BinaryNode SUBTRACT num1 num2 in
      let denominator := BinaryNode POWER v (ConstantNode (Tlit 2)) in
      Ok (BinaryNode DIVIDE numerator denominator)
  | BinaryNode POWER u v =>
      if isConstant v then
        n <- evaluate v ∅ ;;
        let term1 := ConstantNode n in
        let term2 := BinaryNode POWER u (ConstantNode (Tsub n (Tlit 1))) in
        term3 <- derivative u variable ;;
        let part := BinaryNode MULTIPLY term1 term2 in
        Ok (BinaryNode MULTIPLY part term3)
      else Throw Derivative_not_implemented
  | UnaryNode SIN u =>
      let cos_u := UnaryNode COS u in
      du <- derivative u variable ;;
      Ok (BinaryNode MULTIPLY cos_u du)
  | UnaryNode COS u =>
      let sin_u := UnaryNode SIN u in
      let neg_sin := UnaryNode NEGATE sin_u in
      du <- derivative u variable ;;
      Ok (BinaryNode MULTIPLY neg_sin du)
  | UnaryNode EXP u =>
      let exp_u := UnaryNode EXP u in
      du <- derivative u variable ;;
      Ok (BinaryNode MULTIPLY exp_u du)
  | UnaryNode LOG u =>
      du <- derivative u variable ;;
      Ok (BinaryNode DIVIDE du u)
  | UnaryNode NEGATE u =>
      du <- derivative u variable ;;
      Ok (UnaryNode NEGATE du)
  end.

(** The scalar operation [evaluate] applies at each kind of node. *)

Definition binary_op (type : BinaryType) : T -> T -> T :=
  match type with
  | ADD => Tadd
  | SUBTRACT => Tsub
  | MULTIPLY => Tmul
  | DIVIDE => Tdiv
  | POWER => Tpow
  end.

Definition unary_op (type : UnaryType) : T -> T :=
  match type with
  | SIN => Tsin
  | COS => Tcos
  | EXP => Texp
  | LOG => Tlog
  | NEGATE => Tneg
  end.

(** ** Vocabulary of the specification *)

(** A polynomial: constants and variables under [+], [-] and [*]. *)
Fixpoint polynomial (root : Node T) : bool :=
  match root with
  | ConstantNode _ | VariableNode _ => true
  | BinaryNode (ADD | SUBTRACT | MULTIPLY) l r => polynomial l && polynomial r
  | _ => false
  end.

(** Every POWER node of the tree has a constant exponent subtree. *)
Definition constant_exponents (root : Node T) : Prop :=
  forall u v, BinaryNode POWER u v ∈ subtrees root -> isConstant v = true.

Fixpoint constant_exponentsb (root : Node T) : bool :=
  match root with
  | ConstantNode _ | VariableNode _ => true
  | BinaryNode type l r =>
      match type with POWER => isConstant r | _ => true end
      && constant_exponentsb l && constant_exponentsb r
  | UnaryNode _ l => constant_exponentsb l
  end.

(** The tree contains a POWER node whose exponent subtree is not constant. *)
Definition nonconstant_exponent (root : Node T) : Prop :=
  exists u v, BinaryNode POWER u v ∈ subtrees root /\ isConstant v = false.

(** Number of VARIABLE leaves named [name]. *)
Fixpoint count_variable (name : string) (root : Node T) : nat :=
  match root with
  | ConstantNode _ => 0
  | VariableNode x => if String.eqb x name then 1 else 0
  | BinaryNode _ l r => count_variable name l + count_variable name r
  | UnaryNode _ l => count_variable name l
  end.

(** Number of nodes. *)
Fixpoint size (root : Node T) : nat :=
  match root with
  | ConstantNode _ | VariableNode _ => 1
  | BinaryNode _ l r => S (size l + size r)
  | UnaryNode _ l => S (size l)
  end.

(** Rendering as the specification words it: the symbol of a binary
    arithmetic kind between its operands, the name of a transcendental
    function before its operand. *)
Definition symbol (type : BinaryType) : option string :=
  match type with
  | ADD => Some "+"
  | SUBTRACT => Some "-"
  | MULTIPLY => Some "*"
  | DIVIDE => Some "/"
  | POWER => None
  end.

Definition fname (type : UnaryType) : option string :=
  match type with
  | SIN => Some "sin"
  | COS => Some "cos"
  | EXP => Some "exp"
  | LOG => Some "log"
  | NEGATE => None
  end.

Fixpoint render_spec (root : Node T) : string :=
  match root with
  | ConstantNode value => stream_out value
  | VariableNode name => name
  | BinaryNode type l r =>
      match symbol type with
      | Some OP => "(" ++ render_spec l ++ " " ++ OP ++ " " ++ render_spec r ++ ")"
      | None => "pow(" ++ render_spec l ++ ", " ++ render_spec r ++ ")"
      end
  | UnaryNode type l =>
      match fname type with
      | Some f => f ++ "(" ++ render_spec l ++ ")"
      | None => "-(" ++ render_spec l ++ ")"
      end
  end.

End Engine.

(** * Nodes with their identity

    [shared_ptr<Node>] compares by address: two handles denote the same
    node when they hold the same pointer.  A [SharedNode] is a node
    together with the address [make_shared] placed it at; the children of
    an interior node are the nodes its two pointers lead to.  Allocation
    is a counter: [make_shared] places the new node at the next free
    address, above every node that is alive. *)

Module Shared.

Definition address : Type := nat.

Inductive SharedNode (T : Type) : Type :=
| ConstantAt (p : address) (value : T)
| VariableAt (p : address) (variable : string)
| BinaryAt (p : address) (type : BinaryType) (left right : SharedNode T)
| UnaryAt (p : address) (type : UnaryType) (left : SharedNode T).

Arguments ConstantAt {T} p value.
Arguments VariableAt {T} p variable.
Arguments BinaryAt {T} p type left right.
Arguments UnaryAt {T} p type left.

Section WithScalar.

Context {T : Type}.

(** [root.get()]: the address of a node. *)
Definition get (root : SharedNode T) : address :=
  match root with
  | ConstantAt p _ | VariableAt p _ | BinaryAt p _ _ _ | UnaryAt p _ _ => p
  end.

(** The tree a node denotes, addresses forgotten. *)
Fixpoint tree (root : SharedNode T) : Node T :=
  match root with
  | ConstantAt _ value => ConstantNode value
  | VariableAt _ variable => VariableNode variable
  | BinaryAt _ type l r => BinaryNode type (tree l) (tree r)
  | UnaryAt _ type l => UnaryNode type (tree l)
  end.

(** Every node reachable from [root], itself first. *)
Fixpoint nodes (root : SharedNode T) : list (SharedNode T) :=
  root ::
  match root with
  | BinaryAt _ _ l r => nodes l ++ nodes r
  | UnaryAt _ _ l => nodes l
  | _ => []
  end.

Definition addresses (root : SharedNode T) : list address :=
  map get (nodes root).

Definition is_leaf (root : SharedNode T) : bool :=
  match root with
  | ConstantAt _ _ | VariableAt _ _ => true
  | _ => false
  end.

(** [root] does not mention the variable: the substitution has nothing
    to change in it. *)
Definition unaffected (variable : string) (root : SharedNode T) : Prop :=
  variable ∉ variables_of (tree root).

Definition isVariable_named (root : SharedNode T) (var : string) : bool :=
  match root with
  | VariableAt _ variable => String.eqb variable var
  | _ => false
  end.

(** [make_shared<Node>(type, l, r)] and, with a null right pointer,
    [make_shared<Node>(type, l, nullptr)]: the new node and the next free
    address after it. *)
Definition make_shared_binary (type : BinaryType) (l r : SharedNode T)
    (next : address) : SharedNode T * address :=
  (BinaryAt next type l r, S next).

Definition make_shared_unary (type : UnaryType) (l : SharedNode T)
    (next : address) : SharedNode T * address :=
  (UnaryAt next type l, S next).

(** [substitute], allocation by allocation.  [return value] and
    [return *this] hand out an existing root; every other path ends in
    [make_shared], because [newLeft] is the root of the recursive result
    and never null when [root->left] is not. *)
Fixpoint substitute (root : SharedNode T) (variable : string)
    (value : SharedNode T) (next : address) : SharedNode T * address :=
  if isVariable_named root variable then (value, next)
  else
    match root with
    | ConstantAt _ _ | VariableAt _ _ => (root, next)
    | UnaryAt _ type l =>
        let '(newLeft, next1) := substitute l variable value next in
        make_shared_unary type newLeft next1
    | BinaryAt _ type l r =>
        let '(newLeft, next1) := substitute l variable value next in
        let '(newRight, next2) := substitute r variable value next1 in
        make_shared_binary type newLeft newRight next2
    end.

(** The sharing property as the specification states it: a subtree of
    the original that the substitution does not affect is a node of the
    result, the same node and not a copy. *)
Definition sharing_frame : Prop :=
  forall (root value : SharedNode T) (variable : string) (next : address)
         (sub : SharedNode T),
    (forall p, p ∈ addresses root -> p < next) ->
    sub ∈ nodes root ->
    unaffected variable sub ->
    sub ∈ nodes (substitute root variable value next).1.

(** What [substitute] makes of a tree, position by position: the
    replacement's own root in place of a leaf [variable], the leaf itself
    in place of any other leaf, and in place of an interior node a node of
    the same kind, at an address between [next] and [next'], over what it
    makes of the operands. *)
Fixpoint rebuilt (variable : string) (value : SharedNode T)
    (next next' : address) (root result : SharedNode T) : Prop :=
  match root with
  | ConstantAt _ _ => result = root
  | VariableAt _ name =>
      result = (if String.eqb name variable then value else root)
  | BinaryAt _ type l r =>
      exists p newLeft newRight,
        result = BinaryAt p type newLeft newRight /\
        next <= p < next' /\
        rebuilt variable value next next' l newLeft /\
        rebuilt variable value next next' r newRight
  | UnaryAt _ type l =>
      exists p newLeft,
        result = UnaryAt p type newLeft /\
        next <= p < next' /\
        rebuilt variable value next next' l newLeft
  end.

(** ** Differentiation, allocation by allocation

    Every [make_shared] of [derivative] in the order the source reaches
    it; where the source leaves the order of two recursive calls open (the
    arguments of one [make_shared]), the left operand goes first.  An
    exception abandons the nodes allocated so far. *)

Context `{Scalar T}.

Definition make_shared_constant (value : T) (next : address)
    : SharedNode T * address :=
  (ConstantAt next value, S next).

Fixpoint derivative (node : SharedNode T) (variable : string) (next : address)
    : result (SharedNode T * address) :=
  match node with
  | ConstantAt _ _ => Ok (make_shared_constant (Tlit 0) next)
  | VariableAt _ name =>
      Ok (make_shared_constant
            (if String.eqb name variable then Tlit 1 else Tlit 0) next)
  | BinaryAt _ ((ADD | SUBTRACT) as type) l r =>
      r1 <- derivative l variable next ;;
      let '(dl, next1) := r1 in
      r2 <- derivative r variable next1 ;;
      let '(dr, next2) := r2 in
      Ok (make_shared_binary type dl dr next2)
  | BinaryAt _ MULTIPLY u v =>
      r1 <- derivative u variable next ;;
      let '(du, next1) := r1 in
      r2 <- derivative v variable next1 ;;
      let '(dv, next2) := r2 in
      let '(term1, next3) := make_shared_binary MULTIPLY du v next2 in
      let '(term2, next4) := make_shared_binary MULTIPLY u dv next3 in
      Ok (make_shared_binary ADD term1 term2 next4)
  | BinaryAt _ DIVIDE u v =>
      r1 <- derivative u variable next ;;
      let '(du, next1) := r1 in
      r2 <- derivative v variable next1 ;;
      let '(dv, next2) := r2 in
      let '(num1, next3) := make_shared_binary MULTIPLY du v next2 in
      let '(num2, next4) := make_shared_binary MULTIPLY u dv next3 in
      let '(numerator, next5) := make_shared_binary SUBTRACT num1 num2 next4 in
      let '(two, next6) := make_shared_constant (Tlit 2) next5 in
      let '(denominator, next7) := make_shared_binary POWER v two next6 in
      Ok (make_shared_binary DIVIDE numerator denominator next7)
  | BinaryAt _ POWER u v =>
      if isConstant (tree v) then
        n <- evaluate (tree v) ∅ ;;
        let '(term1, next1) := make_shared_constant n next in
        let '(exponent, next2) := make_shared_constant (Tsub n (Tlit 1)) next1 in
        let '(term2, next3) := make_shared_binary POWER u exponent next2 in
        r3 <- derivative u variable next3 ;;
        let '(term3, next4) := r3 in
        let '(part, next5) := make_shared_binary MULTIPLY term1 term2 next4 in
        Ok (make_shared_binary MULTIPLY part term3 next5)
      else Throw Derivative_not_implemented
  | UnaryAt _ SIN u =>
      let '(cos_u, next1) := make_shared_unary COS u next in
      r1 <- derivative u variable next1 ;;
      let '(du, next2) := r1 in
      Ok (make_shared_binary MULTIPLY cos_u du next2)
  | UnaryAt _ COS u =>
      let '(sin_u, next1) := make_shared_unary SIN u next in
      let '(neg_sin, next2) := make_shared_unary NEGATE sin_u next1 in
      r1 <- derivative u variable next2 ;;
      let '(du, next3) := r1 in
      Ok (make_shared_binary MULTIPLY neg_sin du next3)
  | UnaryAt _ EXP u =>
      let '(exp_u, next1) := make_shared_unary EXP u next in
      r1 <- derivative u variable next1 ;;
      let '(du, next2) := r1 in
      Ok (make_shared_binary MULTIPLY exp_u du next2)
  | UnaryAt _ LOG u =>
      r1 <- derivative u variable next ;;
      let '(du, next1) := r1 in
      Ok (make_shared_binary DIVIDE du u next1)
  | UnaryAt _ NEGATE u =>
      r1 <- derivative u variable next ;;
      let '(du, next1) := r1 in
      Ok (make_shared_unary NEGATE du next1)
  end.

(** The operand nodes the rule of a node refers to in its result: both
    operands in the product and quotient rules, the base in the power
    rule, the argument in the rules of the functions. *)
Definition operands_kept (node : SharedNode T) : list (SharedNode T) :=
  match node with
  | BinaryAt _ (MULTIPLY | DIVIDE) u v => [u; v]
  | BinaryAt _ POWER u _ => [u]
  | UnaryAt _ (SIN | COS | EXP | LOG) u => [u]
  | _ => []
  end.

(** What [derivative] makes of a tree, position by position.  The nodes
    written [ConstantAt p], [BinaryAt p], [UnaryAt p] with a bound [p] are
    allocated by the call, at addresses between [next] and [next']; where
    an operand [u] or [v] of the original stands in the result, it is that
    node itself. *)
Fixpoint derived (variable : string) (next next' : address)
    (node d : SharedNode T) : Prop :=
  match node with
  | ConstantAt _ _ =>
      exists p, next <= p < next' /\ d = ConstantAt p (Tlit 0)
  | VariableAt _ name =>
      exists p, next <= p < next' /\
        d = ConstantAt p (if String.eqb name variable then Tlit 1 else Tlit 0)
  | BinaryAt _ ((ADD | SUBTRACT) as type) l r =>
      exists p dl dr, next <= p < next' /\
        derived variable next next' l dl /\ derived variable next next' r dr /\
        d = BinaryAt p type dl dr
  | BinaryAt _ MULTIPLY u v =>
      exists p p1 p2 du dv,
        (next <= p < next' /\ next <= p1 < next' /\ next <= p2 < next') /\
        derived variable next next' u du /\ derived variable next next' v dv /\
        d = BinaryAt p ADD (BinaryAt p1 MULTIPLY du v) (BinaryAt p2 MULTIPLY u dv)
  | BinaryAt _ DIVIDE u v =>
      exists p p1 p2 p3 p4 p5 du dv,
        (next <= p < next' /\ next <= p1 < next' /\ next <= p2 < next' /\
         next <= p3 < next' /\ next <= p4 < next' /\ next <= p5 < next') /\
        derived variable next next' u du /\ derived variable next next' v dv /\
        d = BinaryAt p DIVIDE
              (BinaryAt p1 SUBTRACT (BinaryAt p2 MULTIPLY du v)
                                    (BinaryAt p3 MULTIPLY u dv))
              (BinaryAt p4 POWER v (ConstantAt p5 (Tlit 2)))
  | BinaryAt _ POWER u v =>
      exists p p1 p2 p3 p4 n du,
        (next <= p < next' /\ next <= p1 < next' /\ next <= p2 < next' /\
         next <= p3 < next' /\ next <= p4 < next') /\
        isConstant (tree v) = true /\ evaluate (tree v) ∅ = Ok n /\
        derived variable next next' u du /\
        d = BinaryAt p MULTIPLY
              (BinaryAt p1 MULTIPLY (ConstantAt p2 n)
                 (BinaryAt p3 POWER u (ConstantAt p4 (Tsub n (Tlit 1)))))
              du
  | UnaryAt _ SIN u =>
      exists p p1 du, (next <= p < next' /\ next <= p1 < next') /\
        derived variable next next' u du /\
        d = BinaryAt p MULTIPLY (UnaryAt p1 COS u) du
  | UnaryAt _ COS u =>
      exists p p1 p2 du,
        (next <= p < next' /\ next <= p1 < next' /\ next <= p2 < next') /\
        derived variable next next' u du /\
        d = BinaryAt p MULTIPLY (UnaryAt p1 NEGATE (UnaryAt p2 SIN u)) du
  | UnaryAt _ EXP u =>
      exists p p1 du, (next <= p < next' /\ next <= p1 < next') /\
        derived variable next next' u du /\
        d = BinaryAt p MULTIPLY (UnaryAt p1 EXP u) du
  | UnaryAt _ LOG u =>
      exists p du, next <= p < next' /\
        derived variable next next' u du /\
        d = BinaryAt p DIVIDE du u
  | UnaryAt _ NEGATE u =>
      exists p du, next <= p < next' /\
        derived variable next next' u du /\
        d = UnaryAt p NEGATE du
  end.

End WithScalar.

End Shared.

(** Integers print in decimal, as a small integer-valued [double] does
    ([1.0] prints as "1"). *)
#[export] Instance Z_StreamOut : StreamOut Z := pretty.

(** * Trees for concrete runs *)

(** The tree of the demonstration driver, [pow(x, 2.0) + sin(x)]. *)
Definition driver_f : Node R :=
  op_add (pow_scalar (Expression_variable "x") 2%R) (sin (Expression_variable "x")).

(** [Constant(1) + Constant(2)], its leaves at addresses 0 and 1 and its
    root at address 2, and a replacement at address 3. *)
Definition shared_sum : Shared.SharedNode R :=
  Shared.BinaryAt 2 ADD (Shared.ConstantAt 0 1%R) (Shared.ConstantAt 1 2%R).

Definition shared_zero : Shared.SharedNode R := Shared.ConstantAt 3 0%R.

(** [pow(x, 2)] with its leaves at addresses 0 and 1 and its root at
    address 2. *)
Definition shared_square : Shared.SharedNode R :=
  Shared.BinaryAt 2 POWER (Shared.VariableAt 0 "x") (Shared.ConstantAt 1 2%R).

(** * Measures of a tree and of its text *)

From Stdlib Require Import Ascii.

(** Occurrences of a character in a string. *)
Fixpoint count_char (c : ascii) (s : string) : nat :=
  match s with
  | EmptyString => 0
  | String a rest => (if Ascii.eqb a c then 1 else 0) + count_char c rest
  end.

Section Measures.

Context {T : Type} `{StreamOut T}.

(** Number of interior nodes: one per operation or function applied. *)
Fixpoint operations (root : Node T) : nat :=
  match root with
  | ConstantNode _ | VariableNode _ => 0
  | BinaryNode _ l r => S (operations l + operations r)
  | UnaryNode _ l => S (operations l)
  end.

(** Occurrences of a character in the texts of the leaves: the printed
    constants and the variable names. *)
Fixpoint leaf_chars (c : ascii) (root : Node T) : nat :=
  match root with
  | ConstantNode value => count_char c (stream_out value)
  | VariableNode name => count_char c name
  | BinaryNode _ l r => leaf_chars c l + leaf_chars c r
  | UnaryNode _ l => leaf_chars c l
  end.

End Measures.
(** * Properties of the tree layer *)

Section EngineFacts.

Context {T : Type} `{StreamOut T} `{Scalar T}.

Implicit Types (root node u v l r d : Node T) (variables : gmap string T).

(** ** The error monad *)

Lemma bind_Ok {A B} (c : result A) (k : A -> result B) (b : B) :
  bind c k = Ok b <-> exists a, c = Ok a /\ k a = Ok b.
Proof.
  destruct c as [a|e]; simpl; split.
  - intros Hk. exists a. auto.
  - intros (a' & Ha & Hk). congruence.
  - discriminate.
  - intros (a' & Ha & _). discriminate.
Qed.

Lemma bind_Throw {A B} (c : result A) (k : A -> result B) (e : exception) :
  bind c k = Throw e <-> c = Throw e \/ exists a, c = Ok a /\ k a = Throw e.
Proof.
  destruct c as [a|e']; simpl; split.
  - intros Hk. right. exists a. auto.
  - intros [Hc | (a' & Ha & Hk)]; congruence.
  - intros [= ->]. left. reflexivity.
  - intros [[= ->] | (a' & Ha & _)]; [reflexivity | discriminate].
Qed.

(** ** Evaluation, one equation per arity *)

Lemma evaluate_Binary type l r variables :
  evaluate (BinaryNode type l r) variables =
  (a <- evaluate l variables ;; b <- evaluate r variables ;; Ok (binary_op type a b)).
Proof. destruct type; reflexivity. Qed.

Lemma evaluate_Unary type l variables :
  evaluate (UnaryNode type l) variables =
  (a <- evaluate l variables ;; Ok (unary_op type a)).
Proof. destruct type; reflexivity. Qed.

(** ** Leaves and subtrees *)

Lemma subtrees_root root : root ∈ subtrees root.
Proof. destruct root; simpl; apply list_elem_of_here. Qed.

Lemma subtrees_trans (root mid low : Node T) :
  mid ∈ subtrees root -> low ∈ subtrees mid -> low ∈ subtrees root.
Proof.
  induction root as [c|x|type l IHl r IHr|type l IHl]; simpl; intros Hmid Hlow.
  - apply list_elem_of_singleton in Hmid. subst mid. exact Hlow.
  - apply list_elem_of_singleton in Hmid. subst mid. exact Hlow.
  - apply elem_of_cons in Hmid. destruct Hmid as [-> | Hmid]; [exact Hlow|].
    apply list_elem_of_further. apply elem_of_app.
    apply elem_of_app in Hmid. destruct Hmid; [left | right]; auto.
  - apply elem_of_cons in Hmid. destruct Hmid as [-> | Hmid]; [exact Hlow|].
    apply list_elem_of_further. auto.
Qed.

Lemma variable_leaf root name :
  VariableNode name ∈ subtrees root <-> name ∈ variables_of root.
Proof.
  induction root as [c|x|type l IHl r IHr|type l IHl]; simpl.
  - rewrite list_elem_of_singleton. split; [discriminate|]. intros Hx.
    apply elem_of_nil in Hx. contradiction.
  - rewrite !list_elem_of_singleton. split; congruence.
  - rewrite elem_of_cons, !elem_of_app, IHl, IHr. split.
    + intros [Hx | Hx]; [discriminate | exact Hx].
    + auto.
  - rewrite elem_of_cons, IHl. split.
    + intros [Hx | Hx]; [discriminate | exact Hx].
    + auto.
Qed.

(** A tree is constant exactly when it has no VARIABLE leaf. *)
Lemma isConstant_no_variable root :
  isConstant root = true <-> variables_of root = [].
Proof.
  induction root as [c|x|type l IHl r IHr|type l IHl]; simpl.
  - tauto.
  - split; discriminate.
  - rewrite andb_true_iff, IHl, IHr. split.
    + intros [-> ->]. reflexivity.
    + intros Happ. apply app_eq_nil in Happ. exact Happ.
  - exact IHl.
Qed.

Lemma isConstant_false_variable root :
  isConstant root = false <-> exists name, VariableNode name ∈ subtrees root.
Proof.
  rewrite <- not_true_iff_false, isConstant_no_variable. split.
  - intros Hne. destruct (variables_of root) as [|x xs] eqn:Hvars; [congruence|].
    exists x. apply variable_leaf. rewrite Hvars. apply list_elem_of_here.
  - intros (name & Hin) Hnil. apply variable_leaf in Hin.
    rewrite Hnil in Hin. apply elem_of_nil in Hin. contradiction.
Qed.

Lemma isConstant_subtree root sub :
  isConstant root = true -> sub ∈ subtrees root -> isConstant sub = true.
Proof.
  intros Hroot Hsub. destruct (isConstant sub) eqn:Hc; [reflexivity|].
  apply isConstant_false_variable in Hc. destruct Hc as (name & Hname).
  assert (Hfalse : isConstant root = false).
  { apply isConstant_false_variable. exists name.
    eapply subtrees_trans; eassumption. }
  congruence.
Qed.

(** ** When evaluation returns and when it throws *)

Lemma evaluate_Ok_iff root variables :
  (exists value, evaluate root variables = Ok value) <->
  (forall name, name ∈ variables_of root -> is_Some (variables !! name)).
Proof.
  induction root as [c|x|type l IHl r IHr|type l IHl]; simpl variables_of.
  - split; [|eauto]. intros _ name Hin. apply elem_of_nil in Hin. contradiction.
  - simpl. split.
    + intros (value & Hv) name Hin. apply list_elem_of_singleton in Hin. subst name.
      destruct (variables !! x); [eauto | discriminate].
    + intros Hall. destruct (Hall x) as (it & Hit); [apply list_elem_of_here|].
      rewrite Hit. eauto.
  - rewrite evaluate_Binary. split.
    + intros (value & Hv) name Hin.
      apply bind_Ok in Hv. destruct Hv as (a & Ha & Hv).
      apply bind_Ok in Hv. destruct Hv as (b & Hb & _).
      apply elem_of_app in Hin. destruct Hin as [Hin | Hin].
      * apply IHl; eauto.
      * apply IHr; eauto.
    + intros Hall.
      destruct IHl as [_ IHl]. destruct IHl as (a & Ha).
      { intros name Hin. apply Hall, elem_of_app. auto. }
      destruct IHr as [_ IHr]. destruct IHr as (b & Hb).
      { intros name Hin. apply Hall, elem_of_app. auto. }
      rewrite Ha, Hb. simpl. eauto.
  - rewrite evaluate_Unary. split.
    + intros (value & Hv) name Hin.
      apply bind_Ok in Hv. destruct Hv as (a & Ha & _). apply IHl; eauto.
    + intros Hall. destruct IHl as [_ IHl]. destruct (IHl Hall) as (a & Ha).
      rewrite Ha. simpl. eauto.
Qed.

Lemma evaluate_Throw root variables e :
  evaluate root variables = Throw e ->
  exists name, e = Undefined_variable name /\
               VariableNode name ∈ subtrees root /\ variables !! name = None.
Proof.
  induction root as [c|x|type l IHl r IHr|type l IHl].
  - discriminate.
  - simpl. destruct (variables !! x) eqn:Hx; [discriminate|].
    intros [= <-]. exists x. split; [reflexivity|]. split; [|exact Hx].
    apply list_elem_of_here.
  - rewrite evaluate_Binary. intros Hthrow.
    apply bind_Throw in Hthrow. destruct Hthrow as [Hl | (a & _ & Hthrow)].
    + destruct (IHl Hl) as (name & -> & Hin & Hnone). exists name.
      repeat split; [|exact Hnone]. simpl. apply list_elem_of_further, elem_of_app. auto.
    + apply bind_Throw in Hthrow. destruct Hthrow as [Hr | (b & _ & Hthrow)]; [|discriminate].
      destruct (IHr Hr) as (name & -> & Hin & Hnone). exists name.
      repeat split; [|exact Hnone]. simpl. apply list_elem_of_further, elem_of_app. auto.
  - rewrite evaluate_Unary. intros Hthrow.
    apply bind_Throw in Hthrow. destruct Hthrow as [Hl | (a & _ & Hthrow)]; [|discriminate].
    destruct (IHl Hl) as (name & -> & Hin & Hnone). exists name.
    repeat split; [|exact Hnone]. simpl. apply list_elem_of_further. exact Hin.
Qed.

(** A constant tree evaluates to one value, whatever the bindings. *)
Lemma isConstant_evaluate root :
  isConstant root = true ->
  exists value, forall variables, evaluate root variables = Ok value.
Proof.
  induction root as [c|x|type l IHl r IHr|type l IHl]; simpl isConstant.
  - intros _. exists c. reflexivity.
  - discriminate.
  - intros Hc. apply andb_true_iff in Hc. destruct Hc as [Hl Hr].
    destruct (IHl Hl) as (a & Ha). destruct (IHr Hr) as (b & Hb).
    exists (binary_op type a b). intros variables.
    rewrite evaluate_Binary, Ha, Hb. reflexivity.
  - intros Hc. destruct (IHl Hc) as (a & Ha).
    exists (unary_op type a). intros variables.
    rewrite evaluate_Unary, Ha. reflexivity.
Qed.

(** ** Constant exponents, node by node *)

Lemma constant_exponents_leaf root :
  left root = None -> constant_exponents root.
Proof.
  intros Hleaf u v Hin. destruct root; try discriminate; simpl in Hin;
    apply list_elem_of_singleton in Hin; discriminate.
Qed.

Lemma constant_exponents_Binary type l r :
  constant_exponents (BinaryNode type l r) <->
  (type = POWER -> isConstant r = true) /\
  constant_exponents l /\ constant_exponents r.
Proof.
  unfold constant_exponents. simpl. split.
  - intros Hall. repeat split.
    + intros ->. apply (Hall l r). apply list_elem_of_here.
    + intros u v Hin. apply (Hall u v), list_elem_of_further, elem_of_app. auto.
    + intros u v Hin. apply (Hall u v), list_elem_of_further, elem_of_app. auto.
  - intros (Hroot & Hl & Hr) u v Hin.
    apply elem_of_cons in Hin. destruct Hin as [[= <- <- <-] | Hin]; [auto|].
    apply elem_of_app in Hin. destruct Hin; eauto.
Qed.

Lemma constant_exponents_Unary type l :
  constant_exponents (UnaryNode type l) <-> constant_exponents l.
Proof.
  unfold constant_exponents. simpl. split.
  - intros Hall u v Hin. apply (Hall u v), list_elem_of_further. exact Hin.
  - intros Hl u v Hin.
    apply elem_of_cons in Hin. destruct Hin as [[=] | Hin]. eauto.
Qed.

Lemma constant_exponentsb_spec root :
  constant_exponentsb root = true <-> constant_exponents root.
Proof.
  induction root as [c|x|type l IHl r IHr|type l IHl]; simpl.
  - split; [|reflexivity]. intros _. apply constant_exponents_leaf. reflexivity.
  - split; [|reflexivity]. intros _. apply constant_exponents_leaf. reflexivity.
  - rewrite constant_exponents_Binary, !andb_true_iff, IHl, IHr.
    destruct type; intuition congruence.
  - rewrite constant_exponents_Unary. exact IHl.
Qed.

Lemma isConstant_constant_exponents root :
  isConstant root = true -> constant_exponents root.
Proof.
  intros Hc u v Hin.
  pose proof (isConstant_subtree _ _ Hc Hin) as Hpow. simpl in Hpow.
  apply andb_true_iff in Hpow. tauto.
Qed.

Lemma polynomial_constant_exponents root :
  polynomial root = true -> constant_exponents root.
Proof.
  induction root as [c|x|type l IHl r IHr|type l IHl]; simpl.
  - intros _. apply constant_exponents_leaf. reflexivity.
  - intros _. apply constant_exponents_leaf. reflexivity.
  - intros Hp. apply constant_exponents_Binary.
    destruct type; try discriminate;
      apply andb_true_iff in Hp; destruct Hp as [Hl Hr];
      (split; [discriminate | auto]).
  - discriminate.
Qed.

Lemma nonconstant_not_constant root :
  nonconstant_exponent root -> constant_exponents root -> False.
Proof.
  intros (u & v & Hin & Hv) Hall. rewrite (Hall u v Hin) in Hv. discriminate.
Qed.

(** ** When differentiation returns and when it throws *)

Ltac bind_ok H :=
  let a := fresh "d" in
  let Ha := fresh "Hd" in
  apply bind_Ok in H; destruct H as (a & Ha & H).

Lemma derivative_Ok_exponents root variable d :
  derivative root variable = Ok d -> constant_exponents root.
Proof.
  revert d.
  induction root as [c|x|type l IHl r IHr|type l IHl]; intros d Hd.
  - apply constant_exponents_leaf. reflexivity.
  - apply constant_exponents_leaf. reflexivity.
  - apply constant_exponents_Binary. destruct type; simpl in Hd.
    1-4: bind_ok Hd; bind_ok Hd; (split; [discriminate | eauto]).
    destruct (isConstant r) eqn:Hr; [|discriminate].
    bind_ok Hd. bind_ok Hd. split; [auto|]. split; [eauto|].
    apply isConstant_constant_exponents. exact Hr.
  - apply constant_exponents_Unary. destruct type; simpl in Hd; bind_ok Hd; eauto.
Qed.

Lemma derivative_exists root variable :
  constant_exponents root -> exists d, derivative root variable = Ok d.
Proof.
  induction root as [c|x|type l IHl r IHr|type l IHl]; intros Hall.
  - simpl. eauto.
  - simpl. eauto.
  - apply constant_exponents_Binary in Hall. destruct Hall as (Hroot & Hl & Hr).
    destruct (IHl Hl) as (dl & Hdl). destruct (IHr Hr) as (dr & Hdr).
    destruct type; simpl; rewrite ?Hdl, ?Hdr; simpl; eauto.
    rewrite (Hroot eq_refl).
    destruct (isConstant_evaluate r (Hroot eq_refl)) as (n & Hn).
    rewrite Hn. simpl. eauto.
  - apply constant_exponents_Unary in Hall. destruct (IHl Hall) as (dl & Hdl).
    destruct type; simpl; rewrite Hdl; simpl; eauto.
Qed.

Lemma nonconstant_exponent_Binary_l type l r :
  nonconstant_exponent l -> nonconstant_exponent (BinaryNode type l r).
Proof.
  intros (u & v & Hin & Hv). exists u, v. split; [|exact Hv].
  simpl. apply list_elem_of_further, elem_of_app. auto.
Qed.

Lemma nonconstant_exponent_Binary_r type l r :
  nonconstant_exponent r -> nonconstant_exponent (BinaryNode type l r).
Proof.
  intros (u & v & Hin & Hv). exists u, v. split; [|exact Hv].
  simpl. apply list_elem_of_further, elem_of_app. auto.
Qed.

Lemma nonconstant_exponent_Unary type l :
  nonconstant_exponent l -> nonconstant_exponent (UnaryNode type l).
Proof.
  intros (u & v & Hin & Hv). exists u, v. split; [|exact Hv].
  simpl. apply list_elem_of_further. exact Hin.
Qed.

Lemma derivative_Throw root variable e :
  derivative root variable = Throw e ->
  e = Derivative_not_implemented /\ nonconstant_exponent root.
Proof.
  induction root as [c|x|type l IHl r IHr|type l IHl]; intros Hthrow.
  - discriminate.
  - discriminate.
  - assert (Hsub : derivative l variable = Throw e \/
                   derivative r variable = Throw e \/
                   (type = POWER /\ isConstant r = false /\
                    e = Derivative_not_implemented)).
    { destruct type; simpl in Hthrow.
      1-4: apply bind_Throw in Hthrow;
           destruct Hthrow as [Hl | (dl & _ & Hthrow)]; [auto|];
           apply bind_Throw in Hthrow;
           destruct Hthrow as [Hr | (dr & _ & Hthrow)]; [auto | discriminate].
      destruct (isConstant r) eqn:Hr.
      - destruct (isConstant_evaluate r Hr) as (n & Hn).
        rewrite Hn in Hthrow. simpl in Hthrow.
        apply bind_Throw in Hthrow.
        destruct Hthrow as [Hl | (dl & _ & Hthrow)]; [auto | discriminate].
      - injection Hthrow as <-. auto. }
    destruct Hsub as [Hl | [Hr | (-> & Hr & ->)]].
    + destruct (IHl Hl) as [-> Hbad]. split; [reflexivity|].
      apply nonconstant_exponent_Binary_l. exact Hbad.
    + destruct (IHr Hr) as [-> Hbad]. split; [reflexivity|].
      apply nonconstant_exponent_Binary_r. exact Hbad.
    + split; [reflexivity|]. exists l, r. split; [|exact Hr].
      apply list_elem_of_here.
  - assert (Hl : derivative l variable = Throw e).
    { destruct type; simpl in Hthrow; apply bind_Throw in Hthrow;
        destruct Hthrow as [Hl | (dl & _ & Hthrow)]; auto; discriminate. }
    destruct (IHl Hl) as [-> Hbad]. split; [reflexivity|].
    apply nonconstant_exponent_Unary. exact Hbad.
Qed.

(** ** What a derivative is made of *)

Lemma derivative_constant_exponents root variable d :
  derivative root variable = Ok d -> constant_exponents d.
Proof.
  intros Hd. pose proof (derivative_Ok_exponents _ _ _ Hd) as Hroot.
  revert d Hd Hroot.
  induction root as [c|x|type l IHl r IHr|type l IHl]; intros d Hd Hroot.
  - injection Hd as <-. apply constant_exponents_leaf. reflexivity.
  - injection Hd as <-. apply constant_exponents_leaf. reflexivity.
  - apply constant_exponents_Binary in Hroot. destruct Hroot as (Hpow & Hl & Hr).
    assert (Hlit : forall c : T, constant_exponents (ConstantNode c)).
    { intros c. apply constant_exponents_leaf. reflexivity. }
    destruct type; simpl in Hd.
    5: destruct (isConstant r); [|discriminate].
    all: bind_ok Hd; bind_ok Hd; injection Hd as <-.
    all: repeat (apply constant_exponents_Binary;
                 split; [try discriminate; try reflexivity | split]);
         eauto.
  - apply constant_exponents_Unary in Hroot.
    destruct type; simpl in Hd; bind_ok Hd; injection Hd as <-.
    all: repeat first
           [ apply constant_exponents_Unary
           | apply constant_exponents_Binary;
             split; [try discriminate | split] ];
         eauto.
Qed.

Lemma derivative_variables root variable d :
  derivative root variable = Ok d ->
  forall name, name ∈ variables_of d -> name ∈ variables_of root.
Proof.
  revert d.
  induction root as [c|x|type l IHl r IHr|type l IHl]; intros d Hd name.
  - injection Hd as <-. simpl. auto.
  - injection Hd as <-. simpl. intros Hin. apply elem_of_nil in Hin. contradiction.
  - destruct type; simpl in Hd.
    5: destruct (isConstant r); [|discriminate].
    all: bind_ok Hd; bind_ok Hd; injection Hd as <-; simpl;
         rewrite ?elem_of_app, ?elem_of_nil; intuition eauto.
  - destruct type; simpl in Hd; bind_ok Hd; injection Hd as <-; simpl;
      rewrite ?elem_of_app; intuition eauto.
Qed.

Lemma derivative_evaluate root variable d variables value :
  derivative root variable = Ok d ->
  evaluate root variables = Ok value ->
  exists value', evaluate d variables = Ok value'.
Proof.
  intros Hd Hv. apply evaluate_Ok_iff. intros name Hin.
  apply (derivative_variables _ _ _ Hd) in Hin.
  revert name Hin. apply evaluate_Ok_iff. eauto.
Qed.

(** ** Substitution, node by node *)

Lemma substitute_Variable_eq (x : string) (value : Node T) :
  substitute (VariableNode x) x value = value.
Proof. simpl. rewrite String.eqb_refl. reflexivity. Qed.

Lemma substitute_Variable_ne (x variable : string) (value : Node T) :
  x <> variable -> substitute (VariableNode x) variable value = VariableNode x.
Proof. intros Hne. simpl. apply String.eqb_neq in Hne. rewrite Hne. reflexivity. Qed.

Lemma substitute_unaffected root (variable : string) (value : Node T) :
  variable ∉ variables_of root -> substitute root variable value = root.
Proof.
  induction root as [c|x|type l IHl r IHr|type l IHl]; simpl; intros Hfree.
  - reflexivity.
  - destruct (String.eqb_spec x variable) as [-> | Hne]; [|reflexivity].
    exfalso. apply Hfree, list_elem_of_here.
  - rewrite IHl, IHr; [reflexivity | |];
      intros Hin; apply Hfree, elem_of_app; auto.
  - rewrite IHl; [reflexivity | exact Hfree].
Qed.

Lemma substitute_count root (variable : string) (value : Node T) :
  count_variable variable (substitute root variable value) =
  count_variable variable root * count_variable variable value.
Proof.
  induction root as [c|x|type l IHl r IHr|type l IHl]; simpl.
  - reflexivity.
  - destruct (String.eqb_spec x variable) as [-> | Hne].
    + lia.
    + simpl. apply String.eqb_neq in Hne. rewrite Hne. reflexivity.
  - rewrite IHl, IHr. lia.
  - exact IHl.
Qed.

Lemma substitute_size root (variable : string) (value : Node T) :
  size (substitute root variable value) + count_variable variable root =
  size root + count_variable variable root * size value.
Proof.
  induction root as [c|x|type l IHl r IHr|type l IHl]; simpl.
  - reflexivity.
  - destruct (String.eqb x variable); simpl; lia.
  - lia.
  - lia.
Qed.

End EngineFacts.

(** * The specified properties of the tree layer *)

Section Claims.

Context {T : Type} `{StreamOut T} `{Scalar T}.

Implicit Types (root u v d E : Node T) (variables : gmap string T).

(** C1. Product rule.  Whenever [u] and [v] have derivatives [du] and [dv]
    with respect to [t], [derivative] returns a tree for [u * v], and at
    every binding where [u], [v], [du] and [dv] have values that tree has
    the value of [du*v + u*dv].  For polynomial [u] and [v] the derivatives
    always exist, and they have values wherever [u] and [v] have. *)
Theorem product_rule u v (t : string) :
  (forall du dv,
     derivative u t = Ok du -> derivative v t = Ok dv ->
     exists d, derivative (op_mul u v) t = Ok d /\
       forall variables a b a' b',
         evaluate u variables = Ok a -> evaluate v variables = Ok b ->
         evaluate du variables = Ok a' -> evaluate dv variables = Ok b' ->
         evaluate d variables = Ok (Tadd (Tmul a' b) (Tmul a b'))) /\
  (polynomial u = true -> polynomial v = true ->
   exists du dv d,
     derivative u t = Ok du /\ derivative v t = Ok dv /\
     derivative (op_mul u v) t = Ok d /\
     forall variables a b,
       evaluate u variables = Ok a -> evaluate v variables = Ok b ->
       exists a' b',
         evaluate du variables = Ok a' /\ evaluate dv variables = Ok b' /\
         evaluate d variables = Ok (Tadd (Tmul a' b) (Tmul a b'))).
Proof.
  assert (Hgeneral : forall du dv,
     derivative u t = Ok du -> derivative v t = Ok dv ->
     exists d, derivative (op_mul u v) t = Ok d /\
       forall variables a b a' b',
         evaluate u variables = Ok a -> evaluate v variables = Ok b ->
         evaluate du variables = Ok a' -> evaluate dv variables = Ok b' ->
         evaluate d variables = Ok (Tadd (Tmul a' b) (Tmul a b'))).
  { intros du dv Hdu Hdv.
    exists (op_add (op_mul du v) (op_mul u dv)). split.
    - unfold op_mul, op_add. simpl. rewrite Hdu, Hdv. reflexivity.
    - intros variables a b a' b' Ha Hb Ha' Hb'.
      unfold op_mul, op_add. simpl. rewrite Ha, Hb, Ha', Hb'. reflexivity. }
  split; [exact Hgeneral|].
  intros Hu Hv.
  destruct (derivative_exists u t (polynomial_constant_exponents u Hu)) as (du & Hdu).
  destruct (derivative_exists v t (polynomial_constant_exponents v Hv)) as (dv & Hdv).
  destruct (Hgeneral du dv Hdu Hdv) as (d & Hd & Hvalue).
  exists du, dv, d. repeat split; try assumption.
  intros variables a b Ha Hb.
  destruct (derivative_evaluate u t du variables a Hdu Ha) as (a' & Ha').
  destruct (derivative_evaluate v t dv variables b Hdv Hb) as (b' & Hb').
  exists a', b'. repeat split; try assumption.
  apply Hvalue; assumption.
Qed.

(** C2. Power rule with a constant exponent.  The derivative of
    [pow(x, n)] with respect to [x] exists; it is the tree
    [(n * x^(n-1)) * 1], and wherever multiplying a scalar by [T(1)] gives
    that scalar back, as real and complex multiplication do, its value at
    [{x: a}] is [n * a^(n-1)]. *)
Theorem power_rule (x : string) (n a : T) :
  exists d,
    derivative (pow (Expression_variable x) (Expression_value n)) x = Ok d /\
    evaluate d {[ x := a ]} =
      Ok (Tmul (Tmul n (Tpow a (Tsub n (Tlit 1)))) (Tlit 1)) /\
    ((forall y : T, Tmul y (Tlit 1) = y) ->
     evaluate d {[ x := a ]} = Ok (Tmul n (Tpow a (Tsub n (Tlit 1))))).
Proof.
  unfold pow, Expression_variable, Expression_value. simpl.
  rewrite String.eqb_refl. eexists. split; [reflexivity|].
  simpl. rewrite lookup_singleton_eq. simpl. split; [reflexivity|].
  intros Hone. rewrite Hone. reflexivity.
Qed.

(** C3. Unsupported differentiation.  [derivative] throws "Derivative of
    non-constant exponents not implemented" exactly when the tree contains a
    POWER node whose exponent is not constant, that is, has a VARIABLE leaf;
    on every other tree it returns a tree. *)
Theorem derivative_unsupported root (variable : string) :
  (derivative root variable = Throw Derivative_not_implemented <->
   nonconstant_exponent root) /\
  (~ nonconstant_exponent root -> exists d, derivative root variable = Ok d) /\
  (forall v, isConstant v = false <-> exists name, VariableNode name ∈ subtrees v).
Proof.
  split; [split|split].
  - intros Hthrow. apply derivative_Throw in Hthrow. tauto.
  - intros Hbad. destruct (derivative root variable) as [d|e] eqn:Hd.
    + exfalso. apply (nonconstant_not_constant root Hbad).
      eapply derivative_Ok_exponents. exact Hd.
    + apply derivative_Throw in Hd. destruct Hd as [-> _]. reflexivity.
  - intros Hgood. destruct (derivative root variable) as [d|e] eqn:Hd; [eauto|].
    apply derivative_Throw in Hd. tauto.
  - intros v. apply isConstant_false_variable.
Qed.

(** C4. Unbound variable.  [evaluate] throws exactly when some VARIABLE
    leaf of the tree has a name the bindings lack, and what it throws is
    "Undefined variable: " followed by such a name.  A variable evaluates
    to the value it is bound to, and throws when it is not bound. *)
Theorem evaluate_unbound_variable root variables :
  ((exists e, evaluate root variables = Throw e) <->
   (exists name, VariableNode name ∈ subtrees root /\ variables !! name = None)) /\
  (forall e, evaluate root variables = Throw e ->
     exists name, e = Undefined_variable name /\
       VariableNode name ∈ subtrees root /\ variables !! name = None) /\
  (forall (v : string) (x : T), evaluate (Expression_variable v) {[ v := x ]} = Ok x) /\
  (forall v : string, variables !! v = None ->
     evaluate (Expression_variable v) variables = Throw (Undefined_variable v)).
Proof.
  split; [split|split; [|split]].
  - intros (e & He). apply evaluate_Throw in He.
    destruct He as (name & _ & Hin & Hnone). eauto.
  - intros (name & Hin & Hnone).
    destruct (evaluate root variables) as [value|e] eqn:Hv; [|eauto].
    exfalso. apply variable_leaf in Hin.
    assert (Hsome : is_Some (variables !! name)).
    { revert Hin. generalize name. apply evaluate_Ok_iff. eauto. }
    rewrite Hnone in Hsome. destruct Hsome as (x & Hx). discriminate.
  - intros e. apply evaluate_Throw.
  - intros v x. simpl. rewrite lookup_singleton_eq. reflexivity.
  - intros v Hnone. simpl. rewrite Hnone. reflexivity.
Qed.

(** C5. Substitution at a matching variable leaf.  Substituting [E] for
    [x] in the tree [Variable(x)] returns [E] itself, so the result
    evaluates as [E] does at every bindings map, over every scalar type. *)
Theorem substitute_variable_evaluate (x : string) E variables :
  substitute (Expression_variable x) x E = E /\
  evaluate (substitute (Expression_variable x) x E) variables =
  evaluate E variables.
Proof.
  assert (Hsame : substitute (Expression_variable x) x E = E).
  { simpl. rewrite String.eqb_refl. reflexivity. }
  split; [exact Hsame|]. rewrite Hsame. reflexivity.
Qed.

(** C6. Derivatives compose.  On a tree whose POWER nodes all have constant
    exponents [derivative] returns a tree of the same kind, which therefore
    can be differentiated again with respect to any variable, and which has
    a value at every binding where the original has one.  ([toString] is a
    total function: it renders every tree.) *)
Theorem derivatives_compose root (variable : string) :
  constant_exponents root ->
  exists d,
    derivative root variable = Ok d /\
    constant_exponents d /\
    (forall w : string, exists d', derivative d w = Ok d' /\ constant_exponents d') /\
    (forall variables value,
       evaluate root variables = Ok value ->
       exists value', evaluate d variables = Ok value').
Proof.
  intros Hroot. destruct (derivative_exists root variable Hroot) as (d & Hd).
  pose proof (derivative_constant_exponents _ _ _ Hd) as Hconst.
  exists d. split; [exact Hd|]. split; [exact Hconst|]. split.
  - intros w. destruct (derivative_exists d w Hconst) as (d' & Hd').
    exists d'. split; [exact Hd'|]. eapply derivative_constant_exponents. exact Hd'.
  - intros variables value Hv. eapply derivative_evaluate; eassumption.
Qed.

(** C8. Rendering.  [toString] prints every tree as the specification
    words it: a constant as the scalar's text, a variable as its name,
    "(left OP right)" for the four arithmetic kinds, "pow(left, right)",
    "fname(operand)" and "-(operand)".  With a constant that prints as "1",
    [Add(Constant(1), Variable("x"))] renders as "(1 + x)". *)
Theorem toString_rendering :
  (forall root, toString root = render_spec root) /\
  (forall (value : T) (name : string) l r,
     toString (ConstantNode value) = stream_out value /\
     toString (VariableNode name) = name /\
     toString (BinaryNode ADD l r) = "(" ++ toString l ++ " + " ++ toString r ++ ")" /\
     toString (BinaryNode SUBTRACT l r) = "(" ++ toString l ++ " - " ++ toString r ++ ")" /\
     toString (BinaryNode MULTIPLY l r) = "(" ++ toString l ++ " * " ++ toString r ++ ")" /\
     toString (BinaryNode DIVIDE l r) = "(" ++ toString l ++ " / " ++ toString r ++ ")" /\
     toString (BinaryNode POWER l r) = "pow(" ++ toString l ++ ", " ++ toString r ++ ")" /\
     toString (UnaryNode SIN l) = "sin(" ++ toString l ++ ")" /\
     toString (UnaryNode COS l) = "cos(" ++ toString l ++ ")" /\
     toString (UnaryNode EXP l) = "exp(" ++ toString l ++ ")" /\
     toString (UnaryNode LOG l) = "log(" ++ toString l ++ ")" /\
     toString (UnaryNode NEGATE l) = "-(" ++ toString l ++ ")") /\
  (forall one : T, stream_out one = "1" ->
     toString (op_add (Expression_value one) (Expression_variable "x")) = "(1 + x)").
Proof.
  split; [|split].
  - induction root as [c|x|type l IHl r IHr|type l IHl].
    + reflexivity.
    + reflexivity.
    + destruct type; simpl; rewrite IHl, IHr; reflexivity.
    + destruct type; simpl; rewrite IHl; reflexivity.
  - intros value name l r. repeat split.
  - intros one Hone. simpl. rewrite Hone. reflexivity.
Qed.


(** C10. Substitution is a single pass over the tree.  Each leaf
    [Variable(v)] becomes the replacement as it is, every other leaf stays,
    and an interior node keeps its kind over the substituted operands; the
    occurrences of [v] inside the replacement are not substituted again, so
    the result has as many of them as the tree had leaves [v] times the
    replacement has, and its size is that of the tree with each leaf [v]
    grown to the replacement.  [substitute] recurses on the tree only and
    returns on every tree, also when the replacement mentions [v]:
    [v * v] with [v + c] for [v] is [(v + c) * (v + c)]. *)
Theorem substitute_single_pass (v : string) (r : Node T) :
  substitute (VariableNode v) v r = r /\
  (forall w : string, w <> v -> substitute (VariableNode w) v r = VariableNode w) /\
  (forall c : T, substitute (ConstantNode c) v r = ConstantNode c) /\
  (forall type t1 t2,
     substitute (BinaryNode type t1 t2) v r =
     BinaryNode type (substitute t1 v r) (substitute t2 v r)) /\
  (forall type t1,
     substitute (UnaryNode type t1) v r = UnaryNode type (substitute t1 v r)) /\
  (forall t : Node T,
     count_variable v (substitute t v r) = count_variable v t * count_variable v r) /\
  (forall t : Node T,
     size (substitute t v r) + count_variable v t =
     size t + count_variable v t * size r) /\
  (forall c : T,
     let x := Expression_variable v in
     substitute (op_mul x x) v (op_add x (Expression_value c)) =
     op_mul (op_add x (Expression_value c)) (op_add x (Expression_value c))).
Proof.
  repeat split.
  - apply substitute_Variable_eq.
  - intros w Hne. apply substitute_Variable_ne. exact Hne.
  - intros t. apply substitute_count.
  - intros t. apply substitute_size.
  - intros c. simpl. rewrite String.eqb_refl. reflexivity.
Qed.

End Claims.

(** * Properties of the nodes with their identity *)

Section SharedFacts.

Context {T : Type}.

Implicit Types (root value sub leaf n : Shared.SharedNode T)
               (variable : string) (next : Shared.address).

Lemma shared_nodes_root root : root ∈ Shared.nodes root.
Proof. destruct root; simpl; apply list_elem_of_here. Qed.

(** The allocating [substitute] computes the tree that the tree layer's
    [substitute] computes. *)
Lemma shared_substitute_tree root variable value next :
  Shared.tree (Shared.substitute root variable value next).1 =
  substitute (Shared.tree root) variable (Shared.tree value).
Proof.
  revert next.
  induction root as [p c|p x|p type l IHl r IHr|p type l IHl]; intros next; simpl.
  - reflexivity.
  - destruct (String.eqb x variable); reflexivity.
  - specialize (IHl next).
    destruct (Shared.substitute l variable value next) as [newLeft next1].
    specialize (IHr next1).
    destruct (Shared.substitute r variable value next1) as [newRight next2].
    simpl in *. rewrite IHl, IHr. reflexivity.
  - specialize (IHl next).
    destruct (Shared.substitute l variable value next) as [newLeft next1].
    simpl in *. rewrite IHl. reflexivity.
Qed.

(** Allocation only moves the next free address up. *)
Lemma shared_substitute_next root variable value next :
  next <= (Shared.substitute root variable value next).2.
Proof.
  revert next.
  induction root as [p c|p x|p type l IHl r IHr|p type l IHl]; intros next; simpl.
  - lia.
  - destruct (String.eqb x variable); simpl; lia.
  - specialize (IHl next).
    destruct (Shared.substitute l variable value next) as [newLeft next1].
    specialize (IHr next1).
    destruct (Shared.substitute r variable value next1) as [newRight next2].
    simpl in *. lia.
  - specialize (IHl next).
    destruct (Shared.substitute l variable value next) as [newLeft next1].
    simpl in *. lia.
Qed.

(** On an interior node the root of the result is the node allocated
    last: a new node, of the same kind. *)
Lemma shared_substitute_interior root variable value next :
  Shared.is_leaf root = false ->
  next <= Shared.get (Shared.substitute root variable value next).1 /\
  (Shared.substitute root variable value next).2 =
    S (Shared.get (Shared.substitute root variable value next).1) /\
  Shared.is_leaf (Shared.substitute root variable value next).1 = false.
Proof.
  destruct root as [p c|p x|p type l r|p type l]; simpl; try discriminate; intros _.
  - pose proof (shared_substitute_next l variable value next) as Hl.
    destruct (Shared.substitute l variable value next) as [newLeft next1].
    pose proof (shared_substitute_next r variable value next1) as Hr.
    destruct (Shared.substitute r variable value next1) as [newRight next2].
    simpl in *. repeat split. lia.
  - pose proof (shared_substitute_next l variable value next) as Hl.
    destruct (Shared.substitute l variable value next) as [newLeft next1].
    simpl in *. repeat split. lia.
Qed.

(** Where the nodes of the result come from: a leaf of the original that
    is not the substituted variable, a node of the replacement, or a node
    allocated by this call. *)
Lemma shared_substitute_origin root variable value next n :
  n ∈ Shared.nodes (Shared.substitute root variable value next).1 ->
  (n ∈ Shared.nodes root /\ Shared.is_leaf n = true /\
   Shared.isVariable_named n variable = false) \/
  n ∈ Shared.nodes value \/
  (Shared.is_leaf n = false /\
   next <= Shared.get n < (Shared.substitute root variable value next).2).
Proof.
  revert next.
  induction root as [p c|p x|p type l IHl r IHr|p type l IHl]; intros next; simpl.
  - intros Hn. left. apply list_elem_of_singleton in Hn. subst n. simpl.
    repeat split. apply list_elem_of_here.
  - destruct (String.eqb x variable) eqn:Hx; simpl.
    + auto.
    + intros Hn. left. apply list_elem_of_singleton in Hn. subst n. simpl.
      repeat split; [apply list_elem_of_here | exact Hx].
  - specialize (IHl next).
    pose proof (shared_substitute_next l variable value next) as Hl.
    destruct (Shared.substitute l variable value next) as [newLeft next1].
    specialize (IHr next1).
    pose proof (shared_substitute_next r variable value next1) as Hr.
    destruct (Shared.substitute r variable value next1) as [newRight next2].
    simpl in *. intros Hn. apply elem_of_cons in Hn.
    destruct Hn as [-> | Hn].
    { right. right. simpl. split; [reflexivity | lia]. }
    apply elem_of_app in Hn. destruct Hn as [Hn | Hn].
    + destruct (IHl Hn) as [(Hin & Hleaf & Hvar) | [Hin | (Hleaf & Hnew)]].
      * left. repeat split; try assumption.
        apply list_elem_of_further, elem_of_app. auto.
      * auto.
      * right. right. split; [exact Hleaf | lia].
    + destruct (IHr Hn) as [(Hin & Hleaf & Hvar) | [Hin | (Hleaf & Hnew)]].
      * left. repeat split; try assumption.
        apply list_elem_of_further, elem_of_app. auto.
      * auto.
      * right. right. split; [exact Hleaf | lia].
  - specialize (IHl next).
    pose proof (shared_substitute_next l variable value next) as Hl.
    destruct (Shared.substitute l variable value next) as [newLeft next1].
    simpl in *. intros Hn. apply elem_of_cons in Hn.
    destruct Hn as [-> | Hn].
    { right. right. simpl. split; [reflexivity | lia]. }
    destruct (IHl Hn) as [(Hin & Hleaf & Hvar) | [Hin | (Hleaf & Hnew)]].
    + left. repeat split; try assumption. apply list_elem_of_further. exact Hin.
    + auto.
    + right. right. split; [exact Hleaf | lia].
Qed.

(** Every leaf other than the substituted variable is a node of the
    result. *)
Lemma shared_substitute_leaves root variable value next leaf :
  leaf ∈ Shared.nodes root ->
  Shared.is_leaf leaf = true ->
  Shared.isVariable_named leaf variable = false ->
  leaf ∈ Shared.nodes (Shared.substitute root variable value next).1.
Proof.
  revert next.
  induction root as [p c|p x|p type l IHl r IHr|p type l IHl];
    intros next Hin Hleaf Hvar; simpl in Hin |- *.
  - exact Hin.
  - apply list_elem_of_singleton in Hin. subst leaf. simpl in Hvar.
    rewrite Hvar. apply list_elem_of_here.
  - apply elem_of_cons in Hin. destruct Hin as [-> | Hin]; [discriminate|].
    specialize (IHl next).
    destruct (Shared.substitute l variable value next) as [newLeft next1].
    specialize (IHr next1).
    destruct (Shared.substitute r variable value next1) as [newRight next2].
    simpl in *. apply list_elem_of_further, elem_of_app.
    apply elem_of_app in Hin. destruct Hin; [left | right]; auto.
  - apply elem_of_cons in Hin. destruct Hin as [-> | Hin]; [discriminate|].
    specialize (IHl next).
    destruct (Shared.substitute l variable value next) as [newLeft next1].
    simpl in *. apply list_elem_of_further. auto.
Qed.

Lemma shared_get_addresses root n :
  n ∈ Shared.nodes root -> Shared.get n ∈ Shared.addresses root.
Proof. intros Hin. unfold Shared.addresses. apply list_elem_of_fmap. eauto. Qed.

(** The recursion visits every node of the tree: the result of the call
    on a subtree is a node of the overall result. *)
Lemma shared_substitute_reaches root variable value next sub :
  sub ∈ Shared.nodes root ->
  exists next0,
    next <= next0 /\
    (Shared.substitute sub variable value next0).1 ∈
      Shared.nodes (Shared.substitute root variable value next).1.
Proof.
  revert next.
  induction root as [p c|p x|p type l IHl r IHr|p type l IHl]; intros next Hin.
  - simpl in Hin. apply list_elem_of_singleton in Hin. subst sub.
    exists next. split; [lia | apply shared_nodes_root].
  - simpl in Hin. apply list_elem_of_singleton in Hin. subst sub.
    exists next. split; [lia | apply shared_nodes_root].
  - simpl in Hin. apply elem_of_cons in Hin. destruct Hin as [-> | Hin].
    { exists next. split; [lia | apply shared_nodes_root]. }
    simpl.
    pose proof (shared_substitute_next l variable value next) as Hl.
    specialize (IHl next).
    destruct (Shared.substitute l variable value next) as [newLeft next1].
    specialize (IHr next1).
    destruct (Shared.substitute r variable value next1) as [newRight next2].
    simpl in *. apply elem_of_app in Hin. destruct Hin as [Hin | Hin].
    + destruct (IHl Hin) as (next0 & Hle & Hres). exists next0.
      split; [exact Hle|]. apply list_elem_of_further, elem_of_app. auto.
    + destruct (IHr Hin) as (next0 & Hle & Hres). exists next0.
      split; [lia|]. apply list_elem_of_further, elem_of_app. auto.
  - simpl in Hin. apply elem_of_cons in Hin. destruct Hin as [-> | Hin].
    { exists next. split; [lia | apply shared_nodes_root]. }
    simpl. specialize (IHl next).
    destruct (Shared.substitute l variable value next) as [newLeft next1].
    simpl in *. destruct (IHl Hin) as (next0 & Hle & Hres). exists next0.
    split; [exact Hle|]. apply list_elem_of_further. exact Hres.
Qed.

(** What becomes of a subtree the substitution does not affect: a leaf
    stays the node it was, an interior node is rebuilt at a new address
    over an equal tree. *)
Lemma shared_substitute_copy root variable value next sub :
  sub ∈ Shared.nodes root ->
  Shared.unaffected variable sub ->
  exists copy,
    copy ∈ Shared.nodes (Shared.substitute root variable value next).1 /\
    Shared.tree copy = Shared.tree sub /\
    (Shared.is_leaf sub = true -> copy = sub) /\
    (Shared.is_leaf sub = false ->
       Shared.is_leaf copy = false /\ next <= Shared.get copy).
Proof.
  intros Hin Hfree.
  destruct (shared_substitute_reaches root variable value next sub Hin)
    as (next0 & Hle & Hres).
  exists (Shared.substitute sub variable value next0).1.
  split; [exact Hres|]. split; [|split].
  - rewrite shared_substitute_tree. apply substitute_unaffected. exact Hfree.
  - intros Hleaf. destruct sub as [p c|p x| |]; try discriminate; simpl.
    + reflexivity.
    + destruct (String.eqb_spec x variable) as [-> | Hne]; [|reflexivity].
      exfalso. apply Hfree. simpl. apply list_elem_of_here.
  - intros Hleaf.
    destruct (shared_substitute_interior sub variable value next0 Hleaf)
      as (Hge & _ & Hnew).
    split; [exact Hnew | lia].
Qed.

(** ** The result, position by position *)

Lemma rebuilt_mono variable value next next' lo hi root result :
  lo <= next -> next' <= hi ->
  Shared.rebuilt variable value next next' root result ->
  Shared.rebuilt variable value lo hi root result.
Proof.
  intros Hlo Hhi. revert result.
  induction root as [p c|p x|p type l IHl r IHr|p type l IHl]; intros result; simpl.
  - auto.
  - auto.
  - intros (q & newLeft & newRight & -> & Hq & Hl & Hr).
    exists q, newLeft, newRight. repeat split; auto; lia.
  - intros (q & newLeft & -> & Hq & Hl).
    exists q, newLeft. repeat split; auto; lia.
Qed.

Lemma shared_substitute_rebuilt root variable value next :
  Shared.rebuilt variable value next
    (Shared.substitute root variable value next).2
    root (Shared.substitute root variable value next).1.
Proof.
  revert next.
  induction root as [p c|p x|p type l IHl r IHr|p type l IHl]; intros next; simpl.
  - reflexivity.
  - destruct (String.eqb x variable); reflexivity.
  - specialize (IHl next).
    pose proof (shared_substitute_next l variable value next) as Hl.
    destruct (Shared.substitute l variable value next) as [newLeft next1].
    specialize (IHr next1).
    pose proof (shared_substitute_next r variable value next1) as Hr.
    destruct (Shared.substitute r variable value next1) as [newRight next2].
    simpl in *. exists next2, newLeft, newRight.
    split; [reflexivity|]. split; [lia|]. split.
    + apply (rebuilt_mono variable value next next1); [lia | lia | exact IHl].
    + apply (rebuilt_mono variable value next1 next2); [lia | lia | exact IHr].
  - specialize (IHl next).
    pose proof (shared_substitute_next l variable value next) as Hl.
    destruct (Shared.substitute l variable value next) as [newLeft next1].
    simpl in *. exists next1, newLeft.
    split; [reflexivity|]. split; [lia|].
    apply (rebuilt_mono variable value next next1); [lia | lia | exact IHl].
Qed.

(** The call on a subtree happens within the allocations of the call on
    the tree. *)
Lemma shared_substitute_reaches_within root variable value next sub :
  sub ∈ Shared.nodes root ->
  exists next0,
    next <= next0 /\
    (Shared.substitute sub variable value next0).2 <=
      (Shared.substitute root variable value next).2 /\
    (Shared.substitute sub variable value next0).1 ∈
      Shared.nodes (Shared.substitute root variable value next).1.
Proof.
  revert next.
  induction root as [p c|p x|p type l IHl r IHr|p type l IHl]; intros next Hin.
  - simpl in Hin. apply list_elem_of_singleton in Hin. subst sub.
    exists next. split; [lia|]. split; [lia | apply shared_nodes_root].
  - simpl in Hin. apply list_elem_of_singleton in Hin. subst sub.
    exists next. split; [lia|]. split; [lia | apply shared_nodes_root].
  - simpl in Hin. apply elem_of_cons in Hin. destruct Hin as [-> | Hin].
    { exists next. split; [lia|]. split; [lia | apply shared_nodes_root]. }
    simpl.
    pose proof (shared_substitute_next l variable value next) as Hl.
    specialize (IHl next).
    destruct (Shared.substitute l variable value next) as [newLeft next1].
    pose proof (shared_substitute_next r variable value next1) as Hr.
    specialize (IHr next1).
    destruct (Shared.substitute r variable value next1) as [newRight next2].
    simpl in *. apply elem_of_app in Hin. destruct Hin as [Hin | Hin].
    + destruct (IHl Hin) as (next0 & Hle & Hhi & Hres). exists next0.
      split; [exact Hle|]. split; [lia|].
      apply list_elem_of_further, elem_of_app. auto.
    + destruct (IHr Hin) as (next0 & Hle & Hhi & Hres). exists next0.
      split; [lia|]. split; [lia|].
      apply list_elem_of_further, elem_of_app. auto.
  - simpl in Hin. apply elem_of_cons in Hin. destruct Hin as [-> | Hin].
    { exists next. split; [lia|]. split; [lia | apply shared_nodes_root]. }
    simpl. specialize (IHl next).
    destruct (Shared.substitute l variable value next) as [newLeft next1].
    simpl in *. destruct (IHl Hin) as (next0 & Hle & Hhi & Hres). exists next0.
    split; [exact Hle|]. split; [lia|]. apply list_elem_of_further. exact Hres.
Qed.

Lemma shared_variable_node root p (x : string) :
  Shared.VariableAt p x ∈ Shared.nodes root -> x ∈ variables_of (Shared.tree root).
Proof.
  induction root as [q c|q y|q type l IHl r IHr|q type l IHl]; simpl; intros Hin.
  - apply list_elem_of_singleton in Hin. discriminate.
  - apply list_elem_of_singleton in Hin. injection Hin as _ ->. apply list_elem_of_here.
  - apply elem_of_cons in Hin. destruct Hin as [Hin | Hin]; [discriminate|].
    apply elem_of_app in Hin. apply elem_of_app. destruct Hin; auto.
  - apply elem_of_cons in Hin. destruct Hin as [Hin | Hin]; [discriminate|]. auto.
Qed.

Lemma unaffected_leaf variable sub leaf :
  Shared.unaffected variable sub ->
  leaf ∈ Shared.nodes sub ->
  Shared.isVariable_named leaf variable = false.
Proof.
  intros Hfree Hin. destruct leaf as [p c|p x| |]; try reflexivity. simpl.
  apply String.eqb_neq. intros ->. apply Hfree.
  eapply shared_variable_node. exact Hin.
Qed.

(** The replacement's own root stands wherever the variable was. *)
Lemma rebuilt_value variable value next next' root result p :
  Shared.rebuilt variable value next next' root result ->
  Shared.VariableAt p variable ∈ Shared.nodes root ->
  value ∈ Shared.nodes result.
Proof.
  revert result.
  induction root as [q c|q y|q type l IHl r IHr|q type l IHl];
    intros result Hre Hin; simpl in Hre, Hin.
  - apply list_elem_of_singleton in Hin. discriminate.
  - apply list_elem_of_singleton in Hin. injection Hin as _ <-.
    rewrite String.eqb_refl in Hre. subst result. apply shared_nodes_root.
  - destruct Hre as (q' & newLeft & newRight & -> & _ & Hl & Hr).
    apply elem_of_cons in Hin. destruct Hin as [Hin | Hin]; [discriminate|].
    simpl. apply list_elem_of_further, elem_of_app.
    apply elem_of_app in Hin. destruct Hin; [left | right]; eauto.
  - destruct Hre as (q' & newLeft & -> & _ & Hl).
    apply elem_of_cons in Hin. destruct Hin as [Hin | Hin]; [discriminate|].
    simpl. apply list_elem_of_further. eauto.
Qed.

(** The leaves of a rebuilt unaffected tree are the tree's own leaf nodes. *)
Lemma rebuilt_unaffected_leaves variable value next next' root result leaf :
  Shared.unaffected variable root ->
  Shared.rebuilt variable value next next' root result ->
  Shared.is_leaf leaf = true ->
  (leaf ∈ Shared.nodes result <-> leaf ∈ Shared.nodes root).
Proof.
  intros Hfree Hre Hleaf. revert result Hfree Hre.
  induction root as [q c|q y|q type l IHl r IHr|q type l IHl];
    intros result Hfree Hre; simpl in Hre.
  - subst result. reflexivity.
  - destruct (String.eqb_spec y variable) as [-> | Hne].
    + exfalso. apply Hfree. simpl. apply list_elem_of_here.
    + subst result. reflexivity.
  - destruct Hre as (q' & newLeft & newRight & -> & _ & Hl & Hr).
    assert (Hfl : Shared.unaffected variable l).
    { intros Hin. apply Hfree. simpl. apply elem_of_app. auto. }
    assert (Hfr : Shared.unaffected variable r).
    { intros Hin. apply Hfree. simpl. apply elem_of_app. auto. }
    simpl. rewrite !elem_of_cons, !elem_of_app.
    rewrite (IHl _ Hfl Hl), (IHr _ Hfr Hr).
    split; (intros [-> | Hin]; [discriminate | right; exact Hin]).
  - destruct Hre as (q' & newLeft & -> & _ & Hl).
    simpl. rewrite !elem_of_cons. rewrite (IHl _ Hfree Hl).
    split; (intros [-> | Hin]; [discriminate | right; exact Hin]).
Qed.

End SharedFacts.

(** * Sharing after substitution *)

Section Sharing.

Context {T : Type}.

Implicit Types (root value : Shared.SharedNode T).

(** C7, as the code has it.  A leaf of the original that the substitution
    does not affect is a node of the result, the same node and not a copy;
    an unaffected interior node is not: the result holds in its place a
    node allocated by the call, over an equal tree whose leaves are the
    subtree's own leaf nodes, and no node allocated by the call is a node
    of the original.  Position by position, the result has the
    replacement's own root wherever the tree has a leaf [variable], the
    tree's own leaf at every other leaf, and a newly allocated node of the
    same kind at every interior node.  In all, the result denotes the tree
    that replacing the leaves gives, and each of its nodes is a kept leaf,
    a node of the replacement or newly allocated. *)
Theorem substitute_sharing root value (variable : string) (next : Shared.address) :
  (forall sub,
     sub ∈ Shared.nodes root -> Shared.unaffected variable sub ->
     exists copy,
       copy ∈ Shared.nodes (Shared.substitute root variable value next).1 /\
       Shared.tree copy = Shared.tree sub /\
       Shared.rebuilt variable value next
         (Shared.substitute root variable value next).2 sub copy /\
       (forall leaf, Shared.is_leaf leaf = true ->
          (leaf ∈ Shared.nodes copy <-> leaf ∈ Shared.nodes sub)) /\
       (Shared.is_leaf sub = true -> copy = sub) /\
       (Shared.is_leaf sub = false ->
          Shared.is_leaf copy = false /\ next <= Shared.get copy)) /\
  ((forall p, p ∈ Shared.addresses root -> p < next) ->
   forall n, next <= Shared.get n -> n ∉ Shared.nodes root) /\
  (Shared.is_leaf root = false ->
     Shared.is_leaf (Shared.substitute root variable value next).1 = false /\
     next <= Shared.get (Shared.substitute root variable value next).1) /\
  (Shared.isVariable_named root variable = true ->
     Shared.substitute root variable value next = (value, next)) /\
  Shared.rebuilt variable value next
    (Shared.substitute root variable value next).2
    root (Shared.substitute root variable value next).1 /\
  (forall p, Shared.VariableAt p variable ∈ Shared.nodes root ->
     value ∈ Shared.nodes (Shared.substitute root variable value next).1) /\
  Shared.tree (Shared.substitute root variable value next).1 =
    substitute (Shared.tree root) variable (Shared.tree value) /\
  (forall n,
     n ∈ Shared.nodes (Shared.substitute root variable value next).1 ->
     (n ∈ Shared.nodes root /\ Shared.is_leaf n = true /\
      Shared.isVariable_named n variable = false) \/
     n ∈ Shared.nodes value \/
     (Shared.is_leaf n = false /\
      next <= Shared.get n < (Shared.substitute root variable value next).2)).
Proof.
  split; [|split; [|split; [|split; [|split; [|split; [|split]]]]]].
  - intros sub Hin Hfree.
    destruct (shared_substitute_reaches_within root variable value next sub Hin)
      as (next0 & Hle & Hhi & Hres).
    pose proof (shared_substitute_rebuilt sub variable value next0) as Hre.
    exists (Shared.substitute sub variable value next0).1.
    split; [exact Hres|]. split; [|split; [|split; [|split]]].
    + rewrite shared_substitute_tree. apply substitute_unaffected. exact Hfree.
    + eapply rebuilt_mono; [exact Hle | exact Hhi | exact Hre].
    + intros leaf Hleaf. eapply rebuilt_unaffected_leaves; eassumption.
    + intros Hleaf. destruct sub as [p c|p x| |]; try discriminate; simpl.
      * reflexivity.
      * pose proof (unaffected_leaf variable _ _ Hfree (shared_nodes_root _)) as Hv.
        simpl in Hv. rewrite Hv. reflexivity.
    + intros Hleaf.
      destruct (shared_substitute_interior sub variable value next0 Hleaf)
        as (Hge & _ & Hnew).
      split; [exact Hnew | lia].
  - intros Hfresh n Hge Hin. apply shared_get_addresses, Hfresh in Hin. lia.
  - intros Hinterior.
    destruct (shared_substitute_interior root variable value next Hinterior)
      as (Hge & _ & Hleaf).
    split; [exact Hleaf | exact Hge].
  - intros Hvar. destruct root; simpl in Hvar |- *; try discriminate.
    rewrite Hvar. reflexivity.
  - apply shared_substitute_rebuilt.
  - intros p Hin. eapply rebuilt_value; [apply shared_substitute_rebuilt | exact Hin].
  - apply shared_substitute_tree.
  - intros n. apply shared_substitute_origin.
Qed.

End Sharing.

(** * Concrete runs *)

Section RealRuns.

Local Open Scope R_scope.

Example driver_f_derivative :
  derivative driver_f "x" =
  Ok (op_add
        (op_mul (op_mul (Expression_value 2)
                        (pow (Expression_variable "x") (Expression_value (2 - 1))))
                (Expression_value 1))
        (op_mul (cos (Expression_variable "x")) (Expression_value 1))).
Proof. reflexivity. Qed.

Example driver_f_derivative_value :
  (d <- derivative driver_f "x" ;; evaluate d {[ "x" := 1.5 ]}) =
  Ok (2 * Rpower 1.5 (2 - 1) * 1 + Rtrigo_def.cos 1.5 * 1).
Proof. simpl. rewrite !lookup_singleton_eq. reflexivity. Qed.

Lemma product_rule_witness :
  let x : Node R := Expression_variable "x" in
  let u := op_mul x x in
  let v := op_add x (Expression_value 3) in
  polynomial u = true /\ polynomial v = true /\
  exists du dv d,
    derivative u "x" = Ok du /\ derivative v "x" = Ok dv /\
    derivative (op_mul u v) "x" = Ok d /\
    forall variables a b,
      evaluate u variables = Ok a -> evaluate v variables = Ok b ->
      exists a' b',
        evaluate du variables = Ok a' /\ evaluate dv variables = Ok b' /\
        evaluate d variables = Ok (a' * b + a * b').
Proof.
  intros x u v. split; [reflexivity|]. split; [reflexivity|].
  exact (proj2 (product_rule u v "x") eq_refl eq_refl).
Defined.

Lemma power_rule_witness :
  (forall y : R, y * 1 = y) /\
  exists d,
    derivative (pow (Expression_variable "x") (Expression_value 3)) "x" = Ok d /\
    evaluate d {[ "x" := 2 ]} = Ok (3 * Rpower 2 (3 - 1)).
Proof.
  split; [exact Rmult_1_r|].
  destruct (power_rule "x" 3 2) as (d & Hd & _ & Hvalue).
  exists d. split; [exact Hd|]. exact (Hvalue Rmult_1_r).
Defined.

Lemma derivative_unsupported_witness :
  let root : Node R := pow (Expression_variable "x") (Expression_variable "y") in
  nonconstant_exponent root /\
  derivative root "x" = Throw Derivative_not_implemented.
Proof.
  intros root.
  assert (Hbad : nonconstant_exponent root).
  { exists (Expression_variable "x"), (Expression_variable "y").
    split; [apply list_elem_of_here | reflexivity]. }
  split; [exact Hbad|].
  apply (proj1 (derivative_unsupported root "x")). exact Hbad.
Defined.

Lemma evaluate_unbound_variable_witness :
  let root : Node R := op_add (Expression_variable "x") (Expression_variable "y") in
  let variables : gmap string R := {[ "x" := 1 ]} in
  variables !! "y" = None /\
  exists e, evaluate root variables = Throw e.
Proof.
  intros root variables.
  assert (Hnone : variables !! "y" = None) by reflexivity.
  split; [exact Hnone|].
  apply (proj1 (evaluate_unbound_variable root variables)).
  exists "y". split; [|exact Hnone].
  simpl. apply list_elem_of_further, list_elem_of_further, list_elem_of_here.
Defined.

Lemma derivatives_compose_witness :
  constant_exponents driver_f /\
  exists d,
    derivative driver_f "x" = Ok d /\
    constant_exponents d /\
    (forall w : string, exists d', derivative d w = Ok d' /\ constant_exponents d') /\
    (forall variables value,
       evaluate driver_f variables = Ok value ->
       exists value', evaluate d variables = Ok value').
Proof.
  assert (Hf : constant_exponents driver_f).
  { apply constant_exponentsb_spec. reflexivity. }
  split; [exact Hf|]. apply (derivatives_compose driver_f "x"). exact Hf.
Defined.


Lemma substitute_single_pass_witness :
  "y" <> "x" /\
  substitute (VariableNode "y") "x" (op_add (Expression_variable "x") (Expression_value 1))
  = (VariableNode "y" : Node R).
Proof.
  assert (Hne : "y" <> "x") by discriminate.
  split; [exact Hne|].
  apply (proj1 (proj2 (substitute_single_pass "x"
           (op_add (Expression_variable "x") (Expression_value 1))))).
  exact Hne.
Defined.

End RealRuns.

Lemma toString_rendering_witness :
  stream_out 1%Z = "1" /\
  toString (op_add (Expression_value 1%Z) (Expression_variable "x")) = "(1 + x)".
Proof.
  split; [reflexivity|].
  apply (proj2 (proj2 toString_rendering)). reflexivity.
Defined.

Section SharedRuns.

(** C7, as stated, fails: substituting for [x] in [Constant(1) +
    Constant(2)], which does not mention [x], returns a new node at the
    free address 4 over the two old leaves, and not the old root. *)
Lemma sharing_frame_counterexample :
  Shared.unaffected "x" shared_sum /\
  Shared.substitute shared_sum "x" shared_zero 4 =
    (Shared.BinaryAt 4 ADD (Shared.ConstantAt 0 1%R) (Shared.ConstantAt 1 2%R), 5) /\
  (Shared.substitute shared_sum "x" shared_zero 4).1 <> shared_sum /\
  ~ @Shared.sharing_frame R.
Proof.
  assert (Hfree : Shared.unaffected "x" shared_sum) by apply not_elem_of_nil.
  split; [exact Hfree|]. split; [reflexivity|]. split; [discriminate|].
  intros Hclaim.
  specialize (Hclaim shared_sum shared_zero "x" 4 shared_sum).
  simpl in Hclaim.
  assert (Hin : shared_sum ∈
    [Shared.BinaryAt 4 ADD (Shared.ConstantAt 0 1%R) (Shared.ConstantAt 1 2%R);
     Shared.ConstantAt 0 1%R; Shared.ConstantAt 1 2%R]).
  { apply Hclaim.
    - intros p Hp. unfold Shared.addresses in Hp. simpl in Hp.
      repeat (apply elem_of_cons in Hp; destruct Hp as [-> | Hp]; [lia|]).
      apply elem_of_nil in Hp. contradiction.
    - apply list_elem_of_here.
    - exact Hfree. }
  repeat (apply elem_of_cons in Hin; destruct Hin as [Heq | Hin]; [discriminate|]).
  apply elem_of_nil in Hin. contradiction.
Qed.

Lemma substitute_sharing_witness :
  shared_sum ∈ Shared.nodes shared_sum /\
  Shared.unaffected "x" shared_sum /\
  (forall p, p ∈ Shared.addresses shared_sum -> p < 4) /\
  exists copy,
    copy ∈ Shared.nodes (Shared.substitute shared_sum "x" shared_zero 4).1 /\
    Shared.tree copy = Shared.tree shared_sum /\
    4 <= Shared.get copy /\
    copy ∉ Shared.nodes shared_sum.
Proof.
  assert (Hin : shared_sum ∈ Shared.nodes shared_sum) by apply list_elem_of_here.
  assert (Hfree : Shared.unaffected "x" shared_sum) by apply not_elem_of_nil.
  assert (Hfresh : forall p, p ∈ Shared.addresses shared_sum -> p < 4).
  { intros p Hp. unfold Shared.addresses in Hp. simpl in Hp.
    repeat (apply elem_of_cons in Hp; destruct Hp as [-> | Hp]; [lia|]).
    apply elem_of_nil in Hp. contradiction. }
  split; [exact Hin|]. split; [exact Hfree|]. split; [exact Hfresh|].
  destruct (substitute_sharing shared_sum shared_zero "x" 4)
    as (Hcopy & Hnew & _).
  destruct (Hcopy shared_sum Hin Hfree)
    as (copy & Hres & Htree & _ & _ & _ & Hint).
  destruct (Hint eq_refl) as (_ & Hge).
  exists copy. split; [exact Hres|]. split; [exact Htree|]. split; [exact Hge|].
  apply (Hnew Hfresh). exact Hge.
Defined.

End SharedRuns.

(** * Further properties of the tree layer *)

Section Further.

Context {T : Type} `{StreamOut T} `{Scalar T}.

Implicit Types (root u v l r d E : Node T) (variables : gmap string T).

(** ** Evaluation reads the bindings of the tree's variables only *)

Lemma evaluate_agree root (variables1 variables2 : gmap string T) :
  (forall name, name ∈ variables_of root -> variables1 !! name = variables2 !! name) ->
  evaluate root variables1 = evaluate root variables2.
Proof.
  induction root as [c|x|type l IHl r IHr|type l IHl]; simpl variables_of; intros Hagree.
  - reflexivity.
  - simpl. rewrite (Hagree x); [reflexivity | apply list_elem_of_here].
  - rewrite !evaluate_Binary, IHl, IHr; [reflexivity | |];
      intros name Hin; apply Hagree, elem_of_app; auto.
  - rewrite !evaluate_Unary, IHl; [reflexivity | exact Hagree].
Qed.

(** X1. [evaluate] looks up the variables of the tree and nothing else:
    two bindings maps that agree on them give the same result, value or
    exception; so a value survives adding bindings, and a binding for a
    variable that does not occur is ignored. *)
Theorem evaluate_own_variables root (variables1 variables2 : gmap string T) :
  ((forall name, VariableNode name ∈ subtrees root ->
      variables1 !! name = variables2 !! name) ->
   evaluate root variables1 = evaluate root variables2) /\
  (forall value, variables1 ⊆ variables2 ->
     evaluate root variables1 = Ok value -> evaluate root variables2 = Ok value) /\
  (forall (x : string) (a : T), VariableNode x ∉ subtrees root ->
     evaluate root (<[ x := a ]> variables1) = evaluate root variables1).
Proof.
  split; [|split].
  - intros Hagree. apply evaluate_agree. intros name Hin.
    apply Hagree, variable_leaf. exact Hin.
  - intros value Hsub Hv. rewrite <- Hv. symmetry. apply evaluate_agree.
    intros name Hin.
    assert (Hsome : is_Some (variables1 !! name)).
    { revert Hin. generalize name. apply evaluate_Ok_iff. eauto. }
    destruct Hsome as (a & Ha). rewrite Ha.
    symmetry. eapply lookup_weaken; eassumption.
  - intros x a Hfree. apply evaluate_agree. intros name Hin.
    apply lookup_insert_ne. intros ->. apply Hfree, variable_leaf. exact Hin.
Qed.

(** X2. A tree is constant exactly when it evaluates under the empty
    bindings map, the default argument of [evaluate]. *)
Theorem isConstant_iff_evaluate_empty root :
  isConstant root = true <-> exists value, evaluate root ∅ = Ok value.
Proof.
  rewrite isConstant_no_variable, evaluate_Ok_iff. split.
  - intros Hnil name Hin. rewrite Hnil in Hin. apply elem_of_nil in Hin. contradiction.
  - intros Hall. destruct (variables_of root) as [|x xs]; [reflexivity|].
    destruct (Hall x) as (a & Ha); [apply list_elem_of_here|].
    rewrite lookup_empty in Ha. discriminate.
Qed.

(** ** Substitution and evaluation *)

Lemma evaluate_substitute root (x : string) E variables (e : T) :
  evaluate E variables = Ok e ->
  evaluate (substitute root x E) variables = evaluate root (<[ x := e ]> variables).
Proof.
  intros He.
  induction root as [c|y|type l IHl r IHr|type l IHl].
  - reflexivity.
  - simpl. destruct (String.eqb_spec y x) as [-> | Hne].
    + rewrite lookup_insert_eq. exact He.
    + simpl. rewrite lookup_insert_ne by congruence. reflexivity.
  - change (substitute (BinaryNode type l r) x E)
      with (BinaryNode type (substitute l x E) (substitute r x E)).
    rewrite !evaluate_Binary, IHl, IHr. reflexivity.
  - change (substitute (UnaryNode type l) x E)
      with (UnaryNode type (substitute l x E)).
    rewrite !evaluate_Unary, IHl. reflexivity.
Qed.

Lemma variables_substitute root (x : string) E (name : string) :
  name ∈ variables_of (substitute root x E) <->
  (name ∈ variables_of root /\ name <> x) \/
  (x ∈ variables_of root /\ name ∈ variables_of E).
Proof.
  induction root as [c|y|type l IHl r IHr|type l IHl].
  - simpl. rewrite !elem_of_nil. tauto.
  - simpl. destruct (String.eqb_spec y x) as [-> | Hne]; simpl.
    + split.
      * intros Hin. right. split; [apply list_elem_of_here | exact Hin].
      * intros [[Hin Hne] | [_ Hin]]; [|exact Hin].
        apply list_elem_of_singleton in Hin. congruence.
    + rewrite !list_elem_of_singleton. split.
      * intros ->. left. auto.
      * intros [[-> _] | [Heq _]]; congruence.
  - change (substitute (BinaryNode type l r) x E)
      with (BinaryNode type (substitute l x E) (substitute r x E)).
    simpl. rewrite !elem_of_app, IHl, IHr. tauto.
  - exact IHl.
Qed.

(** X3. Substitution lemma.  When the replacement has the value [e],
    evaluating the substituted tree is evaluating the original with [x]
    bound to [e]: same value or same exception.  When the replacement
    throws and [x] occurs in the tree, the substituted tree throws too. *)
Theorem substitute_evaluate root (x : string) E variables :
  (forall e : T, evaluate E variables = Ok e ->
     evaluate (substitute root x E) variables =
     evaluate root (<[ x := e ]> variables)) /\
  (forall ex, evaluate E variables = Throw ex ->
     VariableNode x ∈ subtrees root ->
     exists ex', evaluate (substitute root x E) variables = Throw ex').
Proof.
  split.
  - intros e. apply evaluate_substitute.
  - intros ex Hthrow Hin.
    destruct (evaluate (substitute root x E) variables) as [value|ex'] eqn:Hv;
      [|eauto].
    exfalso.
    assert (HE : exists e, evaluate E variables = Ok e).
    { apply evaluate_Ok_iff. intros name Hname.
      assert (Hres : name ∈ variables_of (substitute root x E)).
      { apply variables_substitute. right. split; [|exact Hname].
        apply variable_leaf. exact Hin. }
      revert Hres. generalize name. apply evaluate_Ok_iff. eauto. }
    destruct HE as (e & He). congruence.
Qed.

(** X4. The variables of a substituted tree: those of the tree other than
    [x], and, when [x] occurs, those of the replacement.  In particular
    [x] is gone when the replacement does not mention it. *)
Theorem substitute_variables root (x : string) E :
  (forall name : string,
     VariableNode name ∈ subtrees (substitute root x E) <->
     (VariableNode name ∈ subtrees root /\ name <> x) \/
     (VariableNode x ∈ subtrees root /\ VariableNode name ∈ subtrees E)) /\
  (VariableNode x ∉ subtrees E -> VariableNode x ∉ subtrees (substitute root x E)).
Proof.
  assert (Hchar : forall name : string,
     VariableNode name ∈ subtrees (substitute root x E) <->
     (VariableNode name ∈ subtrees root /\ name <> x) \/
     (VariableNode x ∈ subtrees root /\ VariableNode name ∈ subtrees E)).
  { intros name. rewrite !variable_leaf. apply variables_substitute. }
  split; [exact Hchar|].
  intros Hfree Hin. apply Hchar in Hin. destruct Hin as [[_ Hne] | [_ Hin]]; auto.
Qed.

(** X5. Substituting twice for the same variable: when the first
    replacement does not mention [x], the second substitution finds
    nothing to replace and returns an equal tree. *)
Theorem substitute_twice root (x : string) E E' :
  VariableNode x ∉ subtrees E ->
  substitute (substitute root x E) x E' = substitute root x E.
Proof.
  intros Hfree. apply substitute_unaffected. intros Hin.
  apply variables_substitute in Hin. destruct Hin as [[_ Hne] | [_ Hin]].
  - congruence.
  - apply Hfree, variable_leaf. exact Hin.
Qed.

(** X6. [isConstant] after [substitute]: the substituted tree is constant
    exactly when [x] is the only variable of the tree and, if it occurs,
    the replacement is constant. *)
Theorem substitute_isConstant root (x : string) E :
  isConstant (substitute root x E) = true <->
  (forall name : string, VariableNode name ∈ subtrees root -> name = x) /\
  (VariableNode x ∈ subtrees root -> isConstant E = true).
Proof.
  split.
  - intros Hc. split.
    + intros name Hin. destruct (String.eqb_spec name x) as [Heq | Hne]; [exact Heq|].
      exfalso. apply not_false_iff_true in Hc. apply Hc.
      apply isConstant_false_variable. exists name.
      apply variable_leaf, variables_substitute. left.
      split; [apply variable_leaf; exact Hin | exact Hne].
    + intros Hin. destruct (isConstant E) eqn:HE; [reflexivity|].
      exfalso. apply isConstant_false_variable in HE. destruct HE as (name & Hname).
      apply not_false_iff_true in Hc. apply Hc.
      apply isConstant_false_variable. exists name.
      apply variable_leaf, variables_substitute. right.
      split; apply variable_leaf; assumption.
  - intros [Honly HE]. apply not_false_iff_true. intros Hc.
    apply isConstant_false_variable in Hc. destruct Hc as (name & Hname).
    apply variable_leaf, variables_substitute in Hname.
    destruct Hname as [[Hin Hne] | [Hin HinE]].
    + apply Hne, Honly, variable_leaf. exact Hin.
    + apply variable_leaf in Hin. specialize (HE Hin).
      apply not_false_iff_true in HE. apply HE.
      apply isConstant_false_variable. exists name. apply variable_leaf. exact HinE.
Qed.

(** X7. The derivative of a constant tree exists, with respect to any
    variable, and is a constant tree again. *)
Theorem derivative_of_constant root (variable : string) :
  isConstant root = true ->
  exists d, derivative root variable = Ok d /\ isConstant d = true.
Proof.
  intros Hc.
  destruct (derivative_exists root variable (isConstant_constant_exponents root Hc))
    as (d & Hd).
  exists d. split; [exact Hd|].
  apply isConstant_no_variable. apply isConstant_no_variable in Hc.
  destruct (variables_of d) as [|name names] eqn:Hvars; [reflexivity|].
  exfalso.
  assert (Hin : name ∈ variables_of root).
  { apply (derivative_variables root variable d Hd). rewrite Hvars.
    apply list_elem_of_here. }
  rewrite Hc in Hin. apply elem_of_nil in Hin. exact Hin.
Qed.

(** ** The text of a tree *)

Lemma count_char_app (c : ascii) (s1 s2 : string) :
  count_char c (s1 ++ s2) = count_char c s1 + count_char c s2.
Proof.
  induction s1 as [|a s1 IH]; simpl; [reflexivity|]. rewrite IH. lia.
Qed.

(** X8. [toString] is fully parenthesized: it writes exactly one opening
    and one closing parenthesis per operation, around or after what it
    prints for the operands; any further parenthesis comes from the text
    of a leaf.  So the text of a tree whose leaves print without
    parentheses has as many of each as the tree has operations. *)
Theorem toString_parentheses root :
  count_char "(" (toString root) = operations root + leaf_chars "(" root /\
  count_char ")" (toString root) = operations root + leaf_chars ")" root.
Proof.
  induction root as [c|x|type l [IHl1 IHl2] r [IHr1 IHr2]|type l [IHl1 IHl2]].
  - split; reflexivity.
  - split; reflexivity.
  - destruct type; repeat (simpl; rewrite ?count_char_app);
      rewrite ?IHl1, ?IHl2, ?IHr1, ?IHr2; split; lia.
  - destruct type; repeat (simpl; rewrite ?count_char_app);
      rewrite ?IHl1, ?IHl2; split; lia.
Qed.

End Further.

(** * Allocation in [substitute] *)

Section Allocation.

Context {T : Type}.

(** X11. [substitute] allocates one node for every interior node of the
    tree, whether or not the variable occurs in it, and none for a leaf:
    the next free address moves up by the number of operations. *)
Theorem substitute_allocations (root value : Shared.SharedNode T)
    (variable : string) (next : Shared.address) :
  (Shared.substitute root variable value next).2 =
  next + operations (Shared.tree root).
Proof.
  revert next.
  induction root as [p c|p x|p type l IHl r IHr|p type l IHl]; intros next; simpl.
  - lia.
  - destruct (String.eqb x variable); simpl; lia.
  - specialize (IHl next).
    destruct (Shared.substitute l variable value next) as [newLeft next1].
    specialize (IHr next1).
    destruct (Shared.substitute r variable value next1) as [newRight next2].
    simpl in *. lia.
  - specialize (IHl next).
    destruct (Shared.substitute l variable value next) as [newLeft next1].
    simpl in *. lia.
Qed.

End Allocation.

(** * Concrete runs of the further properties *)

Section FurtherRuns.

Local Open Scope R_scope.

Lemma evaluate_own_variables_witness :
  let root : Node R := op_add (Expression_variable "x") (Expression_value 1) in
  ({[ "x" := 2 ]} : gmap string R) ⊆ {[ "x" := 2; "y" := 5 ]} /\
  evaluate root {[ "x" := 2 ]} = Ok (2 + 1) /\
  evaluate root {[ "x" := 2; "y" := 5 ]} = Ok (2 + 1).
Proof.
  intros root.
  assert (Hsub : ({[ "x" := 2 ]} : gmap string R) ⊆ {[ "x" := 2; "y" := 5 ]}).
  { apply insert_mono, map_empty_subseteq. }
  assert (Hv : evaluate root {[ "x" := 2 ]} = Ok (2 + 1)).
  { simpl. rewrite lookup_singleton_eq. reflexivity. }
  split; [exact Hsub|]. split; [exact Hv|].
  exact (proj1 (proj2 (evaluate_own_variables root {[ "x" := 2 ]}
                         {[ "x" := 2; "y" := 5 ]})) (2 + 1) Hsub Hv).
Defined.

Lemma substitute_evaluate_witness :
  let root : Node R := op_mul (Expression_variable "x") (Expression_variable "x") in
  let E : Node R := op_add (Expression_variable "y") (Expression_value 1) in
  evaluate E {[ "y" := 2 ]} = Ok (2 + 1) /\
  evaluate (substitute root "x" E) {[ "y" := 2 ]} =
  evaluate root (<[ "x" := 2 + 1 ]> {[ "y" := 2 ]}).
Proof.
  intros root E.
  assert (HE : evaluate E {[ "y" := 2 ]} = Ok (2 + 1)).
  { simpl. rewrite lookup_singleton_eq. reflexivity. }
  split; [exact HE|].
  exact (proj1 (substitute_evaluate root "x" E {[ "y" := 2 ]}) (2 + 1) HE).
Defined.

Lemma substitute_variables_witness :
  let root : Node R := op_mul (Expression_variable "x") (Expression_variable "x") in
  let E : Node R := op_add (Expression_variable "y") (Expression_value 1) in
  (VariableNode "x" ∉ subtrees E) /\
  VariableNode "x" ∉ subtrees (substitute root "x" E).
Proof.
  intros root E.
  assert (Hfree : VariableNode "x" ∉ subtrees E).
  { intros Hin. apply variable_leaf in Hin. simpl in Hin.
    apply list_elem_of_singleton in Hin. discriminate. }
  split; [exact Hfree|].
  exact (proj2 (substitute_variables root "x" E) Hfree).
Defined.

Lemma substitute_twice_witness :
  let root : Node R := op_mul (Expression_variable "x") (Expression_variable "x") in
  let E : Node R := op_add (Expression_variable "y") (Expression_value 1) in
  (VariableNode "x" ∉ subtrees E) /\
  substitute (substitute root "x" E) "x" (Expression_value 7) = substitute root "x" E.
Proof.
  intros root E.
  assert (Hfree : VariableNode "x" ∉ subtrees E).
  { intros Hin. apply variable_leaf in Hin. simpl in Hin.
    apply list_elem_of_singleton in Hin. discriminate. }
  split; [exact Hfree|].
  exact (substitute_twice root "x" E (Expression_value 7) Hfree).
Defined.

Lemma derivative_of_constant_witness :
  let root : Node R := pow (Expression_value 2) (Expression_value 3) in
  isConstant root = true /\
  exists d, derivative root "x" = Ok d /\ isConstant d = true.
Proof.
  intros root. split; [reflexivity|].
  exact (derivative_of_constant root "x" eq_refl).
Defined.

End FurtherRuns.

(** * Sharing in [derivative] *)

Section SharedDerivative.

Context {T : Type} `{Scalar T}.

Implicit Types (node d n : Shared.SharedNode T) (next : Shared.address).

Local Ltac split_membership :=
  repeat match goal with
  | Hin : _ ∈ _ :: _ |- _ =>
      apply elem_of_cons in Hin; destruct Hin as [-> | Hin]
  | Hin : _ ∈ (_ ++ _)%list |- _ =>
      apply elem_of_app in Hin; destruct Hin as [Hin | Hin]
  | Hin : _ ∈ [] |- _ => apply elem_of_nil in Hin; contradiction
  end.

Local Ltac member :=
  simpl; rewrite ?elem_of_cons, ?elem_of_app; auto.

Local Ltac origin :=
  intros ? Hin; simpl in Hin; split_membership;
  try (right; simpl; lia);
  try (left; member; fail);
  match goal with
  | Horigin : forall n, n ∈ Shared.nodes ?d -> _, Hin : _ ∈ Shared.nodes ?d |- _ =>
      destruct (Horigin _ Hin) as [Hold | Hnew];
      [left; member | right; lia]
  end.

Lemma shared_derivative_spec node (variable : string) next :
  match Shared.derivative node variable next with
  | Ok (d, next') =>
      derivative (Shared.tree node) variable = Ok (Shared.tree d) /\
      next <= Shared.get d /\ next' = S (Shared.get d) /\
      forall n, n ∈ Shared.nodes d ->
                n ∈ Shared.nodes node \/ next <= Shared.get n < next'
  | Throw e => derivative (Shared.tree node) variable = Throw e
  end.
Proof.
  revert next.
  induction node as [p c|p x|p type l IHl r IHr|p type l IHl]; intros next.
  - simpl. repeat split; [lia | origin].
  - simpl. repeat split; [lia | origin].
  - destruct type; simpl.
    5: { destruct (isConstant (Shared.tree r)); [|reflexivity].
         destruct (evaluate (Shared.tree r) ∅) as [n|e]; simpl; [|reflexivity].
         specialize (IHl (S (S (S next)))).
         destruct (Shared.derivative l variable (S (S (S next)))) as [[dl next1]|e];
           simpl; [|rewrite IHl; reflexivity].
         destruct IHl as (Htl & Hgl & -> & Horl).
         rewrite Htl. simpl. repeat split; [lia | origin]. }
    all: specialize (IHl next);
      destruct (Shared.derivative l variable next) as [[dl next1]|e];
      simpl; [|rewrite IHl; reflexivity];
      destruct IHl as (Htl & Hgl & -> & Horl);
      specialize (IHr (S (Shared.get dl)));
      destruct (Shared.derivative r variable (S (Shared.get dl))) as [[dr next2]|e];
      simpl; [|rewrite Htl, IHr; reflexivity];
      destruct IHr as (Htr & Hgr & -> & Horr);
      rewrite Htl, Htr; simpl; repeat split; [lia | origin].
  - destruct type; simpl.
    1, 3: specialize (IHl (S next));
      destruct (Shared.derivative l variable (S next)) as [[dl next1]|e];
      simpl; [|rewrite IHl; reflexivity];
      destruct IHl as (Htl & Hgl & -> & Horl);
      rewrite Htl; simpl; repeat split; [lia | origin].
    1: specialize (IHl (S (S next)));
      destruct (Shared.derivative l variable (S (S next))) as [[dl next1]|e];
      simpl; [|rewrite IHl; reflexivity];
      destruct IHl as (Htl & Hgl & -> & Horl);
      rewrite Htl; simpl; repeat split; [lia | origin].
    all: specialize (IHl next);
      destruct (Shared.derivative l variable next) as [[dl next1]|e];
      simpl; [|rewrite IHl; reflexivity];
      destruct IHl as (Htl & Hgl & -> & Horl);
      rewrite Htl; simpl; repeat split; [lia | origin].
Qed.

(** ** The result, position by position *)

Local Ltac open_derived H :=
  repeat match type of H with
  | exists _, _ => let x := fresh "x" in destruct H as [x H]
  end.

Lemma derived_mono (variable : string) next next' lo hi node d :
  lo <= next -> next' <= hi ->
  Shared.derived variable next next' node d ->
  Shared.derived variable lo hi node d.
Proof.
  intros Hlo Hhi. revert d.
  induction node as [p c|p x|p type l IHl r IHr|p type l IHl]; intros d;
    [| |destruct type|destruct type]; simpl; intros Hd; open_derived Hd;
    destruct_and?; subst d; repeat eexists;
    (match goal with |- _ = _ => reflexivity | |- _ => idtac end);
    (match goal with
     | |- Shared.derived _ _ _ _ _ => first [apply IHl | apply IHr]; assumption
     | |- _ => first [assumption | lia]
     end).
Qed.

Lemma shared_derivative_derived node (variable : string) next d next' :
  Shared.derivative node variable next = Ok (d, next') ->
  Shared.derived variable next next' node d.
Proof.
  revert next d next'.
  induction node as [p c|p x|p type l IHl r IHr|p type l IHl];
    intros next d next' Hd.
  - simpl in Hd. injection Hd as <- <-. simpl. exists next. split; [lia | reflexivity].
  - simpl in Hd. injection Hd as <- <-. simpl. exists next. split; [lia | reflexivity].
  - destruct type; simpl in Hd.
    5: { destruct (isConstant (Shared.tree r)) eqn:Hconst; [|discriminate].
         destruct (evaluate (Shared.tree r) ∅) as [n|e] eqn:Hn; simpl in Hd;
           [|discriminate].
         pose proof (shared_derivative_spec l variable (S (S (S next)))) as Hspec.
         destruct (Shared.derivative l variable (S (S (S next))))
           as [[dl next1]|e] eqn:Hdl; simpl in Hd; [|discriminate].
         destruct Hspec as (_ & Hge & -> & _).
         injection Hd as <- <-. simpl.
         exists (S (S (Shared.get dl))), (S (Shared.get dl)), next, (S (S next)),
                (S next), n, dl.
         split; [lia|]. split; [exact Hconst|]. split; [exact Hn|].
         split; [|reflexivity].
         eapply derived_mono; [| |apply (IHl _ _ _ Hdl)]; lia. }
    all: pose proof (shared_derivative_spec l variable next) as Hspecl;
      destruct (Shared.derivative l variable next) as [[dl next1]|e] eqn:Hdl;
      simpl in Hd; [|discriminate];
      destruct Hspecl as (_ & Hgl & -> & _);
      pose proof (shared_derivative_spec r variable (S (Shared.get dl))) as Hspecr;
      destruct (Shared.derivative r variable (S (Shared.get dl)))
        as [[dr next2]|e] eqn:Hdr;
      simpl in Hd; [|discriminate];
      destruct Hspecr as (_ & Hgr & -> & _);
      injection Hd as <- <-; simpl;
      assert (Hl : Shared.derived variable next (S (Shared.get dl)) l dl)
        by (apply IHl; exact Hdl);
      assert (Hr : Shared.derived variable (S (Shared.get dl)) (S (Shared.get dr)) r dr)
        by (apply IHr; exact Hdr).
    + exists (S (Shared.get dr)), dl, dr. split; [lia|].
      split; [eapply derived_mono; [| |exact Hl]; lia|].
      split; [eapply derived_mono; [| |exact Hr]; lia | reflexivity].
    + exists (S (Shared.get dr)), dl, dr. split; [lia|].
      split; [eapply derived_mono; [| |exact Hl]; lia|].
      split; [eapply derived_mono; [| |exact Hr]; lia | reflexivity].
    + exists (S (S (S (Shared.get dr)))), (S (Shared.get dr)),
             (S (S (Shared.get dr))), dl, dr.
      split; [lia|].
      split; [eapply derived_mono; [| |exact Hl]; lia|].
      split; [eapply derived_mono; [| |exact Hr]; lia | reflexivity].
    + exists (S (S (S (S (S (S (Shared.get dr))))))),
             (S (S (S (Shared.get dr)))), (S (Shared.get dr)),
             (S (S (Shared.get dr))), (S (S (S (S (S (Shared.get dr)))))),
             (S (S (S (S (Shared.get dr))))), dl, dr.
      split; [lia|].
      split; [eapply derived_mono; [| |exact Hl]; lia|].
      split; [eapply derived_mono; [| |exact Hr]; lia | reflexivity].
  - destruct type; simpl in Hd.
    + pose proof (shared_derivative_spec l variable (S next)) as Hspec.
      destruct (Shared.derivative l variable (S next)) as [[dl next1]|e] eqn:Hdl;
        simpl in Hd; [|discriminate].
      destruct Hspec as (_ & Hge & -> & _). injection Hd as <- <-. simpl.
      exists (S (Shared.get dl)), next, dl. split; [lia|].
      split; [|reflexivity]. eapply derived_mono; [| |apply (IHl _ _ _ Hdl)]; lia.
    + pose proof (shared_derivative_spec l variable (S (S next))) as Hspec.
      destruct (Shared.derivative l variable (S (S next))) as [[dl next1]|e] eqn:Hdl;
        simpl in Hd; [|discriminate].
      destruct Hspec as (_ & Hge & -> & _). injection Hd as <- <-. simpl.
      exists (S (Shared.get dl)), (S next), next, dl. split; [lia|].
      split; [|reflexivity]. eapply derived_mono; [| |apply (IHl _ _ _ Hdl)]; lia.
    + pose proof (shared_derivative_spec l variable (S next)) as Hspec.
      destruct (Shared.derivative l variable (S next)) as [[dl next1]|e] eqn:Hdl;
        simpl in Hd; [|discriminate].
      destruct Hspec as (_ & Hge & -> & _). injection Hd as <- <-. simpl.
      exists (S (Shared.get dl)), next, dl. split; [lia|].
      split; [|reflexivity]. eapply derived_mono; [| |apply (IHl _ _ _ Hdl)]; lia.
    + pose proof (shared_derivative_spec l variable next) as Hspec.
      destruct (Shared.derivative l variable next) as [[dl next1]|e] eqn:Hdl;
        simpl in Hd; [|discriminate].
      destruct Hspec as (_ & Hge & -> & _). injection Hd as <- <-. simpl.
      exists (S (Shared.get dl)), dl. split; [lia|].
      split; [|reflexivity]. eapply derived_mono; [| |apply (IHl _ _ _ Hdl)]; lia.
    + pose proof (shared_derivative_spec l variable next) as Hspec.
      destruct (Shared.derivative l variable next) as [[dl next1]|e] eqn:Hdl;
        simpl in Hd; [|discriminate].
      destruct Hspec as (_ & Hge & -> & _). injection Hd as <- <-. simpl.
      exists (S (Shared.get dl)), dl. split; [lia|].
      split; [|reflexivity]. eapply derived_mono; [| |apply (IHl _ _ _ Hdl)]; lia.
Qed.

(** The operands a rule refers to are nodes of the result. *)
Lemma derived_operands_kept (variable : string) next next' node d s :
  Shared.derived variable next next' node d ->
  s ∈ Shared.operands_kept node -> s ∈ Shared.nodes d.
Proof.
  intros Hd Hs.
  destruct node as [p c|p x|p type u v|p type u]; simpl in Hs;
    [apply elem_of_nil in Hs; contradiction
    |apply elem_of_nil in Hs; contradiction
    |destruct type|destruct type];
    simpl in Hd; open_derived Hd;
    try (apply elem_of_nil in Hs; contradiction);
    repeat match type of Hd with _ /\ _ => destruct Hd as [_ Hd] end;
    subst d; simpl;
    repeat (apply elem_of_cons in Hs; destruct Hs as [-> | Hs]);
    try (apply elem_of_nil in Hs; contradiction);
    repeat first [rewrite elem_of_cons | rewrite elem_of_app];
    auto 12 using shared_nodes_root.
Qed.

(** X12. [derivative] shares, it does not copy.  When it returns, its
    result is, position by position, what the rules prescribe ([derived]):
    wherever a rule refers to an operand of the original, the result holds
    that operand node itself, and every other node is allocated by the
    call.  So the operands the rule of the root refers to are nodes of the
    result; every node of the result is a node of the original or newly
    allocated; the root of the result is the node allocated last, none of
    the nodes that existed before; and the result denotes the derivative
    tree of the tree layer.  It throws exactly when the tree layer's
    [derivative] throws. *)
Theorem derivative_sharing node (variable : string) next :
  (forall d next',
     Shared.derivative node variable next = Ok (d, next') ->
     Shared.derived variable next next' node d /\
     (forall s, s ∈ Shared.operands_kept node -> s ∈ Shared.nodes d) /\
     derivative (Shared.tree node) variable = Ok (Shared.tree d) /\
     next <= Shared.get d /\ next' = S (Shared.get d) /\
     (forall n, n ∈ Shared.nodes d ->
                n ∈ Shared.nodes node \/ next <= Shared.get n < next') /\
     ((forall p, p ∈ Shared.addresses node -> p < next) ->
      d ∉ Shared.nodes node)) /\
  (forall e,
     Shared.derivative node variable next = Throw e <->
     derivative (Shared.tree node) variable = Throw e).
Proof.
  pose proof (shared_derivative_spec node variable next) as Hspec.
  split.
  - intros d next' Hd.
    pose proof (shared_derivative_derived node variable next d next' Hd) as Hpos.
    rewrite Hd in Hspec.
    destruct Hspec as (Htree & Hge & Hnext & Horigin).
    split; [exact Hpos|].
    split; [intros s; apply (derived_operands_kept variable next next'); exact Hpos|].
    split; [exact Htree|]. split; [exact Hge|]. split; [exact Hnext|].
    split; [exact Horigin|].
    intros Hfresh Hin. apply shared_get_addresses, Hfresh in Hin. lia.
  - intros e. destruct (Shared.derivative node variable next) as [[d next']|e'].
    + destruct Hspec as (Htree & _). rewrite Htree. split; discriminate.
    + rewrite Hspec. split; intros [= ->]; reflexivity.
Qed.

End SharedDerivative.

Lemma derivative_sharing_witness :
  Shared.derivative shared_square "x" 3 =
    Ok (Shared.BinaryAt 8 MULTIPLY
          (Shared.BinaryAt 7 MULTIPLY
             (Shared.ConstantAt 3 2%R)
             (Shared.BinaryAt 5 POWER (Shared.VariableAt 0 "x")
                (Shared.ConstantAt 4 (2 - 1)%R)))
          (Shared.ConstantAt 6 1%R), 9) /\
  (forall p, p ∈ Shared.addresses shared_square -> p < 3) /\
  Shared.BinaryAt 8 MULTIPLY
    (Shared.BinaryAt 7 MULTIPLY
       (Shared.ConstantAt 3 2%R)
       (Shared.BinaryAt 5 POWER (Shared.VariableAt 0 "x")
          (Shared.ConstantAt 4 (2 - 1)%R)))
    (Shared.ConstantAt 6 1%R) ∉ Shared.nodes shared_square.
Proof.
  assert (Hd : Shared.derivative shared_square "x" 3 =
    Ok (Shared.BinaryAt 8 MULTIPLY
          (Shared.BinaryAt 7 MULTIPLY
             (Shared.ConstantAt 3 2%R)
             (Shared.BinaryAt 5 POWER (Shared.VariableAt 0 "x")
                (Shared.ConstantAt 4 (2 - 1)%R)))
          (Shared.ConstantAt 6 1%R), 9)) by reflexivity.
  assert (Hfresh : forall p, p ∈ Shared.addresses shared_square -> p < 3).
  { intros p Hp. unfold Shared.addresses in Hp. simpl in Hp.
    repeat (apply elem_of_cons in Hp; destruct Hp as [-> | Hp]; [lia|]).
    apply elem_of_nil in Hp. contradiction. }
  split; [exact Hd|]. split; [exact Hfresh|].
  destruct (proj1 (derivative_sharing shared_square "x" 3) _ _ Hd)
    as (_ & _ & _ & _ & _ & _ & Hnew).
  exact (Hnew Hfresh).
Defined.
